(** * PPO agent (ppo.py): rollout buffer, policy sampling, GAE and the update loop

    A shallow embedding of [src/ppo.py].  Tensors and numpy arrays are lists;
    their float entries are idealised as real numbers ([R]), so every
    arithmetic statement below is one of exact arithmetic.  Python lists and
    arrays indexed out of range raise: indexing is [option]-valued and the
    error is threaded with the option monad.  Randomness (the shuffle of
    [generate_batches], the draw of [sample_normal]) is an explicit input.

    NaN and Inf do not exist over the reals: [normalize_reward] with its
    assertion and the numeric path of [learn] are modelled a second time on
    IEEE binary32 and binary64 values ([normalize_reward_f], [learn_f]). *)

From Stdlib Require Import Reals Lra Lia.
From Stdlib Require Import ZArith SpecFloat.
From Stdlib Require String.
From stdpp Require Import base option list.
Import String.StringSyntax.

Open Scope R_scope.

(** ** Arrays of reals *)

Definition Rsum (l : list R) : R := foldr Rplus 0 l.

(** [tensor.mean()]: the sum divided by the number of entries. *)
Definition Rmean (l : list R) : R := Rsum l / INR (length l).

(** The population variance (no Bessel correction). *)
Definition Rvar (l : list R) : R :=
  Rmean (map (fun x => (x - Rmean l) ^ 2) l).

(** [tensor.std(unbiased=False)]: the population standard deviation. *)
Definition Rstd (l : list R) : R := sqrt (Rvar l).

(** [int(b)] for a Python bool. *)
Definition int_of_bool (b : bool) : R := if b then 1 else 0.

(** ** PPOMemory *)

Definition State := list R.

(** The six per-field Python lists and the minibatch size.  [probs] holds the
    log-probability of each stored action and [vals] the critic's estimate. *)
Record PPOMemory := mkMemory {
  states : list State;
  probs : list R;
  vals : list R;
  actions : list (list R);
  rewards : list R;
  dones : list bool;
  batch_size : nat
}.

(** [PPOMemory.__init__] *)
Definition PPOMemory_init (bs : nat) : PPOMemory :=
  mkMemory [] [] [] [] [] [] bs.

(** [np.arange(start, stop, step)] on naturals, by iteration; [fuel] bounds
    the number of entries. *)
Fixpoint arange_from (fuel start stop step : nat) : list nat :=
  match fuel with
  | O => []
  | S fuel' =>
      if (start <? stop)%nat
      then start :: arange_from fuel' (start + step) stop step
      else []
  end.

(** numpy refuses a zero step. *)
Definition arange (stop step : nat) : option (list nat) :=
  if (step =? 0)%nat then None else Some (arange_from stop 0 stop step).

(** The Python slice [l[i:j]]: clipped to the list, never an error. *)
Definition slice {A} (l : list A) (i j : nat) : list A :=
  take (j - i) (drop i l).

(** The arrays handed to [learn] together with the index batches. *)
Record Batches := mkBatches {
  state_arr : list State;
  action_arr : list (list R);
  old_prob_arr : list R;
  vals_arr : list R;
  reward_arr : list R;
  dones_arr : list bool;
  batches : list (list nat)
}.

(** [PPOMemory.generate_batches].  [indices] is [np.arange(n_states)] after
    [np.random.shuffle]: the random draw is an input. *)
Definition generate_batches (m : PPOMemory) (indices : list nat) : option Batches :=
  let n_states := length (states m) in
  batch_start ← arange n_states (batch_size m);
  Some (mkBatches (states m) (actions m) (probs m) (vals m) (rewards m) (dones m)
          (map (fun i => slice indices i (i + batch_size m)) batch_start)).

(** [PPOMemory.store_memory] *)
Definition store_memory (m : PPOMemory) (state : State) (action : list R)
    (prob val reward : R) (done : bool) : PPOMemory :=
  mkMemory (states m ++ [state]) (probs m ++ [prob]) (vals m ++ [val])
           (actions m ++ [action]) (rewards m ++ [reward]) (dones m ++ [done])
           (batch_size m).

(** [PPOMemory.clear_memory] *)
Definition clear_memory (m : PPOMemory) : PPOMemory :=
  mkMemory [] [] [] [] [] [] (batch_size m).

(** All six per-field sequences have the same length. *)
Definition mem_inv (m : PPOMemory) : Prop :=
  length (probs m) = length (states m) /\
  length (vals m) = length (states m) /\
  length (actions m) = length (states m) /\
  length (rewards m) = length (states m) /\
  length (dones m) = length (states m).

Definition mem_empty (m : PPOMemory) : Prop :=
  states m = [] /\ probs m = [] /\ vals m = [] /\
  actions m = [] /\ rewards m = [] /\ dones m = [].

(** ** Generalised advantage estimation (the first loop of [Agent.learn]) *)

(** A [for] loop whose body may raise. *)
Fixpoint foldM {A B} (f : A -> B -> option A) (a : A) (l : list B) : option A :=
  match l with
  | [] => Some a
  | x :: l' => a' ← f a x; foldM f a' l'
  end.

(** One iteration of [for t in reversed(range(len(reward_arr) - 1))].  The
    loop state is the array [advantage] and the scalar [last_adv]. *)
Definition gae_step (gamma gae_lambda : R) (reward_arr vals_arr : list R)
    (dones_arr : list bool) (st : list R * R) (t : nat) : option (list R * R) :=
  r ← reward_arr !! t;
  v' ← vals_arr !! S t;
  d ← dones_arr !! t;
  v ← vals_arr !! t;
  let delta := r + gamma * v' * (1 - int_of_bool d) - v in
  let last_adv := delta + gamma * gae_lambda * st.2 in
  _ ← st.1 !! t;
  Some (<[t := last_adv]> st.1, last_adv).

(** The loop, started on an arbitrary pre-filled array. *)
Definition gae_loop (gamma gae_lambda : R) (reward_arr vals_arr : list R)
    (dones_arr : list bool) (advantage : list R) : option (list R) :=
  fst <$> foldM (gae_step gamma gae_lambda reward_arr vals_arr dones_arr)
            (advantage, 0) (reverse (seq 0 (length reward_arr - 1))).

(** [advantage = np.zeros(len(reward_arr))] followed by the loop. *)
Definition raw_advantage (gamma gae_lambda : R) (reward_arr vals_arr : list R)
    (dones_arr : list bool) : option (list R) :=
  gae_loop gamma gae_lambda reward_arr vals_arr dones_arr
    (replicate (length reward_arr) 0).

(** [(advantage - advantage.mean()) / (advantage.std(unbiased=False) + 1e-8)] *)
Definition normalize_advantage (advantage : list R) : list R :=
  map (fun x => (x - Rmean advantage) / (Rstd advantage + 1e-8)) advantage.

(** ** torch.distributions.Normal, one row of a diagonal Gaussian *)

Record Normal := mkNormal { loc : list R; scale : list R }.

(** [Normal.log_prob] at one coordinate:
    [-((value - loc) ** 2) / (2 * scale ** 2) - log(scale) - log(sqrt(2 * pi))]. *)
Definition log_density (mu sigma value : R) : R :=
  - ((value - mu) ^ 2) / (2 * sigma ^ 2) - ln sigma - ln (sqrt (2 * PI)).

Definition log_prob (d : Normal) (value : list R) : list R :=
  zip_with (fun ms v => log_density ms.1 ms.2 v) (zip (loc d) (scale d)) value.

(** [Normal.entropy]: [0.5 + 0.5 * log(2 * pi) + log(scale)] per coordinate. *)
Definition entropy (d : Normal) : list R :=
  zip_with (fun _ sigma => 0.5 + 0.5 * ln (2 * PI) + ln sigma) (loc d) (scale d).

(** [T.clamp(x, lo, hi)] *)
Definition clamp (x lo hi : R) : R := Rmin (Rmax x lo) hi.

(** ** Network layers *)

(** [nn.Linear]: one weight row and one bias per output. *)
Record Linear := mkLinear { weight : list (list R); bias : list R }.

Definition dot (u v : list R) : R := Rsum (zip_with Rmult u v).

Definition Linear_forward (l : Linear) (x : list R) : list R :=
  zip_with (fun row b => dot row x + b) (weight l) (bias l).

Definition ReLU (x : list R) : list R := map (Rmax 0) x.

Section Networks.

(** The internal state of an [optim.Adam] instance. *)
Context {Adam : Type}.

(** [ActorNetwork]: the [actor] Sequential (two Linear layers, each followed
    by ReLU), the [mean] head and the learnable [log_std]. *)
Record ActorNetwork := mkActor {
  actor_fc1 : Linear;
  actor_fc2 : Linear;
  mean_head : Linear;
  log_std : list R;
  actor_optimiser : Adam
}.

(** [CriticNetwork]: the last layer is [nn.Linear(fc2_dims, 1)], a single
    output row. *)
Record CriticNetwork := mkCritic {
  critic_fc1 : Linear;
  critic_fc2 : Linear;
  value_weight : list R;
  value_bias : R;
  critic_optimiser : Adam
}.

(** [ActorNetwork.forward] on one state. *)
Definition actor_forward (net : ActorNetwork) (state : State) : list R * list R :=
  let features := ReLU (Linear_forward (actor_fc2 net)
                    (ReLU (Linear_forward (actor_fc1 net) state))) in
  let mean := Linear_forward (mean_head net) features in
  let std := map exp (log_std net) in
  (mean, std).

(** [CriticNetwork.forward] on one state. *)
Definition critic_forward (net : CriticNetwork) (state : State) : R :=
  let h := ReLU (Linear_forward (critic_fc2 net)
             (ReLU (Linear_forward (critic_fc1 net) state))) in
  dot (value_weight net) h + value_bias net.

(** [ActorNetwork.sample_normal].  [sample] stands for [dist.sample()]: the
    random draw is an input.  The name [action] is rebound to the squashed
    value before [dist.log_prob(action)] is evaluated. *)
Definition sample_normal (net : ActorNetwork) (state : State)
    (sample : Normal -> list R) : list R * R * Normal :=
  let '(mean, std) := actor_forward net state in
  let std := map (fun s => Rmax s 1e-6) std in
  let dist := mkNormal mean std in
  let action := sample dist in
  let action := map (fun x => 2 * tanh x) action in
  let log_prob := Rsum (log_prob dist action) in
  (action, log_prob, dist).

(** ** Agent *)

Record Agent := mkAgent {
  gamma : R;
  policy_clip : R;
  n_epochs : nat;
  gae_lambda : R;
  entropy_coef : R;
  running_mean : R;
  running_var : R;
  epsilon : R;
  actor : ActorNetwork;
  critic : CriticNetwork;
  memory : PPOMemory
}.

(** [Agent.__init__]; the freshly initialised networks are inputs. *)
Definition Agent_init (actor0 : ActorNetwork) (critic0 : CriticNetwork)
    (gamma gae_lambda policy_clip : R) (batch_size n_epochs : nat)
    (entropy_coef : R) : Agent :=
  mkAgent gamma policy_clip n_epochs gae_lambda entropy_coef
          0 1 1e-8 actor0 critic0 (PPOMemory_init batch_size).

Definition set_memory (a : Agent) (m : PPOMemory) : Agent :=
  mkAgent (gamma a) (policy_clip a) (n_epochs a) (gae_lambda a) (entropy_coef a)
          (running_mean a) (running_var a) (epsilon a) (actor a) (critic a) m.

Definition set_networks (a : Agent) (nets : ActorNetwork * CriticNetwork) : Agent :=
  mkAgent (gamma a) (policy_clip a) (n_epochs a) (gae_lambda a) (entropy_coef a)
          (running_mean a) (running_var a) (epsilon a) nets.1 nets.2 (memory a).

Definition set_running (a : Agent) (rm rv : R) : Agent :=
  mkAgent (gamma a) (policy_clip a) (n_epochs a) (gae_lambda a) (entropy_coef a)
          rm rv (epsilon a) (actor a) (critic a) (memory a).

(** [Agent.remember] *)
Definition remember (a : Agent) (state : State) (action : list R)
    (prob val reward : R) (done : bool) : Agent :=
  set_memory a (store_memory (memory a) state action prob val reward done).

(** [Agent.normalize_reward] in exact arithmetic: the updated agent and the
    returned value.  Over the reals the value is never NaN or Inf, so the
    assertion has no counterpart here; [normalize_reward_f] below is the same
    method on IEEE floats, with the assertion. *)
Definition normalize_reward (a : Agent) (reward : R) : Agent * R :=
  let rm := 0.99 * running_mean a + 0.01 * reward in
  let rv := 0.99 * running_var a + 0.01 * (reward - rm) ^ 2 in
  let normalized_reward := (reward - rm) / (sqrt rv + epsilon a) in
  (set_running a rm rv, normalized_reward).

(** [Agent.choose_action] *)
Definition choose_action (a : Agent) (observation : State)
    (sample : Normal -> list R) : list R * R * R :=
  let '(action, log_prob, _) := sample_normal (actor a) observation sample in
  let value := critic_forward (critic a) observation in
  (action, log_prob, value).

(** *** The update loop *)

(** Fancy indexing [arr[batch]]. *)
Definition gather {A} (arr : list A) (batch : list nat) : option (list A) :=
  mapM (fun i => arr !! i) batch.

(** What one batch iteration reads from the arrays. *)
Record BatchData := mkBatchData {
  b_states : list State;
  b_old_probs : list R;
  b_actions : list (list R);
  b_advantage : list R
}.

(** The distributions of the batch: [std] is clamped at [1e-4] here. *)
Definition batch_dist (net : ActorNetwork) (sts : list State) : list Normal :=
  map (fun s => let '(mean, std) := actor_forward net s in
                mkNormal mean (map (fun x => Rmax x 1e-4) std)) sts.

(** [self.critic(states).squeeze()] *)
Definition critic_value (net : CriticNetwork) (sts : list State) : list R :=
  map (critic_forward net) sts.

(** [actor_loss].  [new_probs], [old_probs] and [prob_ratio] have shape
    (B, 1) (the stored log-probabilities are those [choose_action] returned,
    of shape (1,)), and [advantage[batch]] has shape (B,): the two products
    broadcast to B rows of B entries. *)
Definition actor_loss (a : Agent) (d : BatchData) (net : ActorNetwork) : R :=
  let dist := batch_dist net (b_states d) in
  let new_probs := zip_with (fun di act => Rsum (log_prob di act)) dist (b_actions d) in
  let prob_ratio := zip_with (fun n o => exp (n - o)) new_probs (b_old_probs d) in
  let weighted_probs :=
    map (fun r => map (fun adv => adv * r) (b_advantage d)) prob_ratio in
  let weighted_clipped_probs :=
    map (fun r => map (fun adv =>
           clamp r (1 - policy_clip a) (1 + policy_clip a) * adv) (b_advantage d))
        prob_ratio in
  let entropy_loss := Rmean (concat (map entropy dist)) in
  - Rmean (concat (zip_with (zip_with Rmin) weighted_probs weighted_clipped_probs))
  - entropy_coef a * entropy_loss.

(** [critic_loss].  [detached] is the critic at the time of the forward pass:
    [critic_value.detach()] is a constant of the loss. *)
Definition critic_loss (d : BatchData) (detached net : CriticNetwork) : R :=
  let returns := zip_with Rplus (b_advantage d) (critic_value detached (b_states d)) in
  Rmean (map (fun x => x ^ 2)
           (zip_with Rminus returns (critic_value net (b_states d)))).

(** [total_loss] as a function of the parameters being differentiated. *)
Definition total_loss (a : Agent) (d : BatchData)
    (nets : ActorNetwork * CriticNetwork) : R :=
  actor_loss a d nets.1 + 0.5 * critic_loss d (critic a) nets.2.

(** [zero_grad], [total_loss.backward()], the two [clip_grad_norm_] and the
    two [optimiser.step()]: the loss as a function of the parameters, and the
    networks before and after. *)
Variable backward_step :
  (ActorNetwork * CriticNetwork -> R) ->
  ActorNetwork * CriticNetwork -> ActorNetwork * CriticNetwork.

(** The body of [for batch in batches]. *)
Definition learn_batch (bt : Batches) (advantage : list R)
    (a : Agent) (batch : list nat) : option Agent :=
  sts ← gather (state_arr bt) batch;
  old_probs ← gather (old_prob_arr bt) batch;
  acts ← gather (action_arr bt) batch;
  adv ← gather advantage batch;
  let d := mkBatchData sts old_probs acts adv in
  Some (set_networks a (backward_step (total_loss a d) (actor a, critic a))).

(** The raw advantage array an epoch computes from the agent's buffer. *)
Definition epoch_raw_advantage (a : Agent) (bt : Batches) : option (list R) :=
  raw_advantage (gamma a) (gae_lambda a) (reward_arr bt) (vals_arr bt) (dones_arr bt).

(** The body of [for _ in range(self.n_epochs)]; [indices] is this epoch's
    shuffle. *)
Definition learn_epoch (a : Agent) (indices : list nat) : option Agent :=
  bt ← generate_batches (memory a) indices;
  advantage ← epoch_raw_advantage a bt;
  let advantage := normalize_advantage advantage in
  foldM (learn_batch bt advantage) a (batches bt).

(** The agent after the first [k] epochs; [shuffle e] is the shuffle drawn in
    epoch [e]. *)
Definition learn_epochs (a : Agent) (shuffle : nat -> list nat) (k : nat) : option Agent :=
  foldM (fun a' e => learn_epoch a' (shuffle e)) a (seq 0 k).

(** [Agent.learn] *)
Definition learn (a : Agent) (shuffle : nat -> list nat) : option Agent :=
  a' ← learn_epochs a shuffle (n_epochs a);
  Some (set_memory a' (clear_memory (memory a'))).

(** The agents a caller can obtain: a fresh agent, and whatever the methods
    make of one.  [load_models] replaces the two networks by those of the
    checkpoint files; [choose_action] and [save_models] leave the agent as
    it is. *)
Inductive reachable : Agent -> Prop :=
  | reach_init actor0 critic0 g l c bs ne ec :
      reachable (Agent_init actor0 critic0 g l c bs ne ec)
  | reach_remember a state action prob val reward done :
      reachable a -> reachable (remember a state action prob val reward done)
  | reach_normalize_reward a reward :
      reachable a -> reachable (normalize_reward a reward).1
  | reach_load_models a nets :
      reachable a -> reachable (set_networks a nets)
  | reach_learn a shuffle a' :
      reachable a -> learn a shuffle = Some a' -> reachable a'.

End Networks.

Arguments ActorNetwork : clear implicits.
Arguments CriticNetwork : clear implicits.
Arguments Agent : clear implicits.

(** ** Definitions in the words of the specification *)

(** The TD residual [delta_t] in the words of the specification; entries
    outside the arrays read as 0. *)
Definition td_residual (gamma : R) (reward value : list R) (done : list bool)
    (t : nat) : R :=
  nth t reward 0 + gamma * nth (S t) value 0 * (1 - int_of_bool (nth t done false))
  - nth t value 0.

(** The closed form: the sum over [k] in [t, n-2] of
    [(gamma * lambda) ^ (k - t) * delta_k]. *)
Definition discounted_td_sum (gamma lambda : R) (reward value : list R)
    (done : list bool) (t : nat) : R :=
  Rsum (map (fun k => (gamma * lambda) ^ (k - t) * td_residual gamma reward value done k)
            (seq t (length reward - 1 - t))).

(** The density of the normal distribution with mean [mu] and standard
    deviation [sigma]. *)
Definition gaussian_pdf (mu sigma x : R) : R :=
  / (sigma * sqrt (2 * PI)) * exp (- (x - mu) ^ 2 / (2 * sigma ^ 2)).

(** The sum over the action dimensions of the logarithm of the normal
    density at [point]. *)
Fixpoint sum_log_pdf (mean std point : list R) : R :=
  match mean, std, point with
  | m :: mean', s :: std', x :: point' =>
      ln (gaussian_pdf m s x) + sum_log_pdf mean' std' point'
  | _, _, _ => 0
  end.

(** The log-probability in the words of the specification: the density of
    [dist] at the pre-transform sample [dist.sample()]. *)
Definition raw_sample_log_prob {Adam} (net : ActorNetwork Adam) (state : State)
    (sample : Normal -> list R) : R :=
  let '(mean, std) := actor_forward net state in
  let dist := mkNormal mean (map (fun s => Rmax s 1e-6) std) in
  sum_log_pdf (loc dist) (scale dist) (sample dist).

(** Two agents that differ at most in [running_mean] and [running_var]. *)
Definition differ_only_in_running_stats {Adam} (a1 a2 : Agent Adam) : Prop :=
  gamma a1 = gamma a2 /\ policy_clip a1 = policy_clip a2 /\
  n_epochs a1 = n_epochs a2 /\ gae_lambda a1 = gae_lambda a2 /\
  entropy_coef a1 = entropy_coef a2 /\ epsilon a1 = epsilon a2 /\
  actor a1 = actor a2 /\ critic a1 = critic a2 /\ memory a1 = memory a2.

(** ** Concrete instances *)

(** A one-input, one-action actor with all weights, biases and [log_std] 0;
    the optimiser state is a step counter. *)
Definition zero_actor : ActorNetwork nat :=
  mkActor (mkLinear [[0]] [0]) (mkLinear [[0]] [0]) (mkLinear [[0]] [0]) [0] 0%nat.

Definition zero_critic : CriticNetwork nat :=
  mkCritic (mkLinear [[0]] [0]) (mkLinear [[0]] [0]) [0] 0 0%nat.

(** An optimiser step that only counts. *)
Definition count_steps (loss : ActorNetwork nat * CriticNetwork nat -> R)
    (nets : ActorNetwork nat * CriticNetwork nat)
    : ActorNetwork nat * CriticNetwork nat :=
  (mkActor (actor_fc1 nets.1) (actor_fc2 nets.1) (mean_head nets.1)
           (log_std nets.1) (S (actor_optimiser nets.1)),
   mkCritic (critic_fc1 nets.2) (critic_fc2 nets.2) (value_weight nets.2)
            (value_bias nets.2) (S (critic_optimiser nets.2))).

(** A fresh agent with batch size 2, and the same agent after two calls of
    [remember]. *)
Definition fresh_agent : Agent nat :=
  Agent_init zero_actor zero_critic 0.99 0.95 0.2 2 1 0.01.

Definition two_step_agent : Agent nat :=
  remember (remember fresh_agent [0] [0] 0 0 1 false) [0] [0] 0 0 1 true.

(** The shuffle that alternates between the identity and the swap. *)
Definition alternating_shuffle (e : nat) : list nat :=
  if Nat.even e then [0; 1]%nat else [1; 0]%nat.


(** ** Rollouts, the surrogate term and the constructors *)

(** One call of [remember]: the six values stored together. *)
Record Transition := mkTransition {
  t_state : State;
  t_action : list R;
  t_prob : R;
  t_val : R;
  t_reward : R;
  t_done : bool
}.

(** A rollout: [store_memory] called once per transition, in order. *)
Definition store_transitions (m : PPOMemory) (ts : list Transition) : PPOMemory :=
  foldl (fun m' t => store_memory m' (t_state t) (t_action t) (t_prob t)
                       (t_val t) (t_reward t) (t_done t)) m ts.

(** One entry of [T.min(weighted_probs, weighted_clipped_probs)]. *)
Definition surrogate (clip adv ratio : R) : R :=
  Rmin (adv * ratio) (clamp ratio (1 - clip) (1 + clip) * adv).

(** [init_weights] on an [nn.Linear]: the weight is refilled by
    [xavier_uniform_] (the draw [xavier] is an input) and the bias by
    [zeros_]. *)
Definition init_weights (m : Linear) (xavier : list (list R)) : Linear :=
  mkLinear xavier (map (fun _ => 0) (bias m)).

(** [ActorNetwork.__init__]: [fc1], [fc2] and [head] are the three layers as
    [nn.Linear] constructs them, [log_std] is [T.zeros(n_actions)], and
    [self.apply(init_weights)] visits the three layers. *)
Definition ActorNetwork_init {Adam} (n_actions : nat) (fc1 fc2 head : Linear)
    (x1 x2 x3 : list (list R)) (optimiser : Adam) : ActorNetwork Adam :=
  mkActor (init_weights fc1 x1) (init_weights fc2 x2) (init_weights head x3)
          (replicate n_actions 0) optimiser.

(** ** Checkpoints *)

(** [os.path.join(a, b)] on POSIX paths. *)
Definition ends_with_sep (p : String.string) : bool :=
  String.eqb (String.substring (String.length p - 1) 1 p) "/".

Definition os_path_join (a b : String.string) : String.string :=
  if String.prefix "/" b then b
  else if (String.eqb a "" || ends_with_sep a)%bool then String.append a b
  else String.append a (String.append "/" b).

Section Paths.
Local Open Scope string_scope.

(** The default [chkpt_dir], which is what [Agent.__init__] passes on. *)
Definition chkpt_dir : String.string := "tmp/ppo".

Definition actor_checkpoint_file : String.string := os_path_join chkpt_dir "actor_ppo".
Definition critic_checkpoint_file : String.string := os_path_join chkpt_dir "critic_ppo".

End Paths.

(** What [state_dict()] holds: the parameters of a network, without the
    optimiser, which is an attribute and not a parameter. *)
Inductive StateDict :=
  | ActorState (fc1 fc2 head : Linear) (log_std : list R)
  | CriticState (fc1 fc2 : Linear) (value_weight : list R) (value_bias : R).

(** The shape of a layer: the length of each weight row and of the bias. *)
Definition Linear_shape (l : Linear) : list nat * nat :=
  (map length (weight l), length (bias l)).

Section Checkpoints.

(** The file system, with [T.save(obj, f)] and [T.load(f)]; either can
    raise. *)
Context {Adam FS : Type}.
Variable T_save : FS -> StateDict -> String.string -> option FS.
Variable T_load : FS -> String.string -> option StateDict.

Definition actor_state_dict (net : ActorNetwork Adam) : StateDict :=
  ActorState (actor_fc1 net) (actor_fc2 net) (mean_head net) (log_std net).

Definition critic_state_dict (net : CriticNetwork Adam) : StateDict :=
  CriticState (critic_fc1 net) (critic_fc2 net) (value_weight net) (value_bias net).

(** [load_state_dict]: the keys and the shapes must be those of the network;
    the values are copied into the parameters and the optimiser is left as
    it is. *)
Definition actor_load_state_dict (net : ActorNetwork Adam) (sd : StateDict)
    : option (ActorNetwork Adam) :=
  match sd with
  | ActorState fc1 fc2 head ls =>
      if bool_decide (Linear_shape fc1 = Linear_shape (actor_fc1 net) /\
                      Linear_shape fc2 = Linear_shape (actor_fc2 net) /\
                      Linear_shape head = Linear_shape (mean_head net) /\
                      length ls = length (log_std net))
      then Some (mkActor fc1 fc2 head ls (actor_optimiser net))
      else None
  | CriticState _ _ _ _ => None
  end.

Definition critic_load_state_dict (net : CriticNetwork Adam) (sd : StateDict)
    : option (CriticNetwork Adam) :=
  match sd with
  | CriticState fc1 fc2 w b =>
      if bool_decide (Linear_shape fc1 = Linear_shape (critic_fc1 net) /\
                      Linear_shape fc2 = Linear_shape (critic_fc2 net) /\
                      length w = length (value_weight net))
      then Some (mkCritic fc1 fc2 w b (critic_optimiser net))
      else None
  | ActorState _ _ _ _ => None
  end.

(** [ActorNetwork.save_checkpoint] and [load_checkpoint] *)
Definition actor_save_checkpoint (fs : FS) (net : ActorNetwork Adam) : option FS :=
  T_save fs (actor_state_dict net) actor_checkpoint_file.

Definition actor_load_checkpoint (fs : FS) (net : ActorNetwork Adam)
    : option (ActorNetwork Adam) :=
  sd ← T_load fs actor_checkpoint_file; actor_load_state_dict net sd.

(** [CriticNetwork.save_checkpoint] and [load_checkpoint] *)
Definition critic_save_checkpoint (fs : FS) (net : CriticNetwork Adam) : option FS :=
  T_save fs (critic_state_dict net) critic_checkpoint_file.

Definition critic_load_checkpoint (fs : FS) (net : CriticNetwork Adam)
    : option (CriticNetwork Adam) :=
  sd ← T_load fs critic_checkpoint_file; critic_load_state_dict net sd.

(** [Agent.save_models] *)
Definition save_models (fs : FS) (a : Agent Adam) : option FS :=
  fs1 ← actor_save_checkpoint fs (actor a);
  critic_save_checkpoint fs1 (critic a).

(** [Agent.load_models] *)
Definition load_models (fs : FS) (a : Agent Adam) : option (Agent Adam) :=
  act ← actor_load_checkpoint fs (actor a);
  crt ← critic_load_checkpoint fs (critic a);
  Some (set_networks a (act, crt)).

End Checkpoints.

(** A file system as a finite list of files, the newest first; every
    directory exists. *)
Definition list_save (fs : list (String.string * StateDict)) (obj : StateDict)
    (f : String.string) : option (list (String.string * StateDict)) :=
  Some ((f, obj) :: fs).

Fixpoint list_load (fs : list (String.string * StateDict)) (f : String.string)
    : option StateDict :=
  match fs with
  | [] => None
  | (g, obj) :: fs' => if String.eqb g f then Some obj else list_load fs' f
  end.

(** ** IEEE floats: [normalize_reward] and the update loop on float values

    Python floats and numpy's float64 are binary64, torch's [T.float] is
    binary32; both are [spec_float] values with the operations of the
    Standard Library at the two precisions. *)

Definition f64_add := SFadd 53 1024.
Definition f64_sub := SFsub 53 1024.
Definition f64_mul := SFmul 53 1024.
Definition f64_div := SFdiv 53 1024.

Definition f32_add := SFadd 24 128.
Definition f32_sub := SFsub 24 128.
Definition f32_mul := SFmul 24 128.
Definition f32_div := SFdiv 24 128.
Definition f32_sqrt := SFsqrt 24 128.

(** A Python [int] as a float. *)
Definition f64_of_Z (n : Z) : spec_float := binary_normalize 53 1024 n 0 false.
Definition f32_of_nat (n : nat) : spec_float :=
  binary_normalize 24 128 (Z.of_nat n) 0 false.

(** The Python literal [a/b] written in decimal (0.99, 0.01, 1e-8, 0.5): the
    binary64 value nearest to the quotient. *)
Definition py_literal (a b : Z) : spec_float := f64_div (f64_of_Z a) (f64_of_Z b).

(** The cast to [T.float] or to a [np.float32] array: round to binary32. *)
Definition to_f32 (x : spec_float) : spec_float :=
  match x with
  | S754_finite s m e => binary_round 24 128 s m e
  | _ => x
  end.

(** [T.isnan] and [T.isinf] *)
Definition isnan (x : spec_float) : bool :=
  match x with S754_nan => true | _ => false end.

Definition isinf (x : spec_float) : bool :=
  match x with S754_infinity _ => true | _ => false end.

(** A Python scalar is a [float] or a 0-dim [T.float] tensor.  An operation
    on two Python floats is one of binary64; as soon as a tensor takes part,
    the other operand is cast to binary32 and the result is a tensor. *)
Inductive scalar := PyFloat (x : spec_float) | Tensor (x : spec_float).

Definition tensor_of (v : scalar) : spec_float :=
  match v with PyFloat x => to_f32 x | Tensor x => x end.

(** The float a scalar holds, at its own precision. *)
Definition scalar_value (v : scalar) : spec_float :=
  match v with PyFloat x | Tensor x => x end.

Definition scalar_op (op64 op32 : spec_float -> spec_float -> spec_float)
    (a b : scalar) : scalar :=
  match a, b with
  | PyFloat x, PyFloat y => PyFloat (op64 x y)
  | _, _ => Tensor (op32 (tensor_of a) (tensor_of b))
  end.

Definition scalar_add := scalar_op f64_add f32_add.
Definition scalar_sub := scalar_op f64_sub f32_sub.
Definition scalar_mul := scalar_op f64_mul f32_mul.

(** The three attributes [normalize_reward] works on. *)
Record RewardStats := mkStats {
  rs_running_mean : scalar;
  rs_running_var : scalar;
  rs_epsilon : scalar
}.

(** Their values after [Agent.__init__]: 0.0, 1.0 and 1e-8. *)
Definition RewardStats_init : RewardStats :=
  mkStats (PyFloat (f64_of_Z 0)) (PyFloat (f64_of_Z 1))
          (PyFloat (py_literal 1 100000000)).

(** The new [running_mean], the new [running_var] and [normalized_reward] of
    [Agent.normalize_reward] on floats; [reward] is the Python float passed
    in, cast by [T.tensor(reward, dtype=T.float)]. *)
Definition new_running_mean (st : RewardStats) (reward : spec_float) : scalar :=
  scalar_add (scalar_mul (PyFloat (py_literal 99 100)) (rs_running_mean st))
             (scalar_mul (PyFloat (py_literal 1 100)) (Tensor (to_f32 reward))).

Definition new_running_var (st : RewardStats) (reward : spec_float) : scalar :=
  let d := scalar_sub (Tensor (to_f32 reward)) (new_running_mean st reward) in
  scalar_add (scalar_mul (PyFloat (py_literal 99 100)) (rs_running_var st))
             (scalar_mul (PyFloat (py_literal 1 100)) (scalar_mul d d)).

Definition normalized_reward_f (st : RewardStats) (reward : spec_float) : spec_float :=
  let d := scalar_sub (Tensor (to_f32 reward)) (new_running_mean st reward) in
  let root := Tensor (f32_sqrt (tensor_of (new_running_var st reward))) in
  f32_div (tensor_of d) (tensor_of (scalar_add root (rs_epsilon st))).

Inductive outcome := AssertionError | Returned (x : spec_float).

(** [Agent.normalize_reward] on floats: the two attributes are assigned
    before the assertion is evaluated. *)
Definition normalize_reward_f (st : RewardStats) (reward : spec_float)
    : RewardStats * outcome :=
  let st' := mkStats (new_running_mean st reward) (new_running_var st reward)
               (rs_epsilon st) in
  let normalized_reward := normalized_reward_f st reward in
  if negb (isnan normalized_reward) && negb (isinf normalized_reward)
  then (st', Returned normalized_reward)
  else (st', AssertionError).

(** [tensor.mean()] and [tensor.std(unbiased=False)] of a [T.float] tensor;
    the entries are added from left to right. *)
Definition f32_sum (l : list spec_float) : spec_float :=
  foldl f32_add (S754_zero false) l.

Definition f32_mean (l : list spec_float) : spec_float :=
  f32_div (f32_sum l) (f32_of_nat (length l)).

Definition f32_square (x : spec_float) : spec_float := f32_mul x x.





Section FloatLearn.

(** States, actions and the two networks with their optimisers are left
    abstract on this level, and so are the forward pass of the critic, the
    actor loss and the optimiser step. *)
Context {St Act Nets : Type}.

Record FMemory := mkFMemory {
  fm_states : list St;
  fm_probs : list spec_float;
  fm_vals : list spec_float;
  fm_actions : list Act;
  fm_rewards : list spec_float;
  fm_dones : list bool;
  fm_batch_size : nat
}.

Record FAgent := mkFAgent {
  fa_gamma : spec_float;
  fa_gae_lambda : spec_float;
  fa_policy_clip : spec_float;
  fa_entropy_coef : spec_float;
  fa_n_epochs : nat;
  fa_nets : Nets;
  fa_memory : FMemory
}.

Record FBatchData := mkFBatchData {
  fb_states : list St;
  fb_old_probs : list spec_float;
  fb_actions : list Act;
  fb_advantage : list spec_float
}.

Variable critic_f : Nets -> St -> spec_float.
Variable actor_loss_f : FAgent -> FBatchData -> Nets -> spec_float.
Variable backward_step_f : (Nets -> spec_float) -> Nets -> Nets.



Definition fa_set_nets (a : FAgent) (nets : Nets) : FAgent :=
  mkFAgent (fa_gamma a) (fa_gae_lambda a) (fa_policy_clip a) (fa_entropy_coef a)
           (fa_n_epochs a) nets (fa_memory a).



(** [critic_loss] and [total_loss] on floats. *)
Definition critic_loss_f (d : FBatchData) (detached net : Nets) : spec_float :=
  let returns := zip_with f32_add (fb_advantage d) (map (critic_f detached) (fb_states d)) in
  f32_mean (map f32_square (zip_with f32_sub returns (map (critic_f net) (fb_states d)))).

Definition total_loss_f (a : FAgent) (d : FBatchData) (nets : Nets) : spec_float :=
  f32_add (actor_loss_f a d nets)
          (f32_mul (to_f32 (py_literal 1 2)) (critic_loss_f d (fa_nets a) nets)).

Definition learn_batch_f (advantage : list spec_float) (a : FAgent)
    (batch : list nat) : option FAgent :=
  sts ← gather (fm_states (fa_memory a)) batch;
  old_probs ← gather (fm_probs (fa_memory a)) batch;
  acts ← gather (fm_actions (fa_memory a)) batch;
  adv ← gather advantage batch;
  let d := mkFBatchData sts old_probs acts adv in
  Some (fa_set_nets a (backward_step_f (total_loss_f a d) (fa_nets a))).




End FloatLearn.

Arguments FMemory : clear implicits.
Arguments FAgent : clear implicits.
Arguments FBatchData : clear implicits.


(** ** Batching: [generate_batches] partitions the shuffled indices *)

Section Batching.
Local Open Scope nat_scope.

Example arange_200_64 : arange 200 64 = Some [0; 64; 128; 192].
Proof. reflexivity. Qed.

Example batches_5_2 :
  batches <$> generate_batches
    (mkMemory (replicate 5 []) (replicate 5 0%R) (replicate 5 0%R) (replicate 5 [])
       (replicate 5 1%R) (replicate 5 false) 2) [3; 0; 4; 1; 2]
  = Some [[3; 0]; [4; 1]; [2]].
Proof. reflexivity. Qed.

Lemma arange_from_lookup fuel s stop b k i :
  arange_from fuel s stop b !! k = Some i -> i = s + k * b /\ i < stop.
Proof.
  revert s k. induction fuel as [|fuel IH]; intros s k; simpl; [done|].
  destruct (Nat.ltb_spec s stop) as [Hlt|Hge]; [|done].
  destruct k as [|k]; simpl.
  - intros [= <-]. lia.
  - intros H. apply IH in H. lia.
Qed.

Lemma arange_from_length fuel s stop b :
  1 <= b -> stop - s <= fuel ->
  length (arange_from fuel s stop b) = (stop - s + b - 1) / b.
Proof.
  intros Hb. revert s. induction fuel as [|fuel IH]; intros s Hf; simpl.
  - replace (stop - s + b - 1) with (b - 1) by lia.
    symmetry. apply Nat.div_small. lia.
  - destruct (Nat.ltb_spec s stop) as [Hlt|Hge]; simpl.
    + rewrite IH by lia.
      destruct (Nat.le_gt_cases b (stop - s)) as [Hle|Hgt].
      * replace (stop - s + b - 1) with ((stop - (s + b) + b - 1) + 1 * b) by lia.
        rewrite Nat.div_add by lia. lia.
      * replace (stop - (s + b) + b - 1) with (b - 1) by lia.
        rewrite (Nat.div_small (b - 1)) by lia.
        apply (Nat.div_unique _ _ 1 (stop - s - 1)); lia.
    + replace (stop - s + b - 1) with (b - 1) by lia.
      symmetry. apply Nat.div_small. lia.
Qed.

Lemma arange_from_concat {A} (l : list A) fuel s b :
  1 <= b -> length l - s <= fuel ->
  concat (map (fun i => slice l i (i + b)) (arange_from fuel s (length l) b))
  = drop s l.
Proof.
  intros Hb. revert s. induction fuel as [|fuel IH]; intros s Hf; simpl.
  - rewrite drop_ge; [done|lia].
  - destruct (Nat.ltb_spec s (length l)) as [Hlt|Hge]; simpl.
    + rewrite IH by lia. unfold slice.
      replace (s + b - s) with b by lia.
      rewrite <- drop_drop. apply take_drop.
    + rewrite drop_ge; [done|lia].
Qed.

Lemma slice_length {A} (l : list A) i b :
  length (slice l i (i + b)) = b `min` (length l - i).
Proof.
  unfold slice. rewrite length_take, length_drop.
  replace (i + b - i) with b by lia. done.
Qed.

(** Chunks of a duplicate-free list never share an element. *)
Lemma concat_NoDup_disjoint {A} (ls : list (list A)) j k bj bk x :
  NoDup (concat ls) ->
  ls !! j = Some bj -> ls !! k = Some bk -> x ∈ bj -> x ∈ bk -> j = k.
Proof.
  revert j k. induction ls as [|c ls IH]; intros j k Hnd Hj Hk Hxj Hxk; [done|].
  simpl in Hnd. apply NoDup_app in Hnd as (Hc & Hdis & Hrest).
  assert (Hin : forall i b, ls !! i = Some b -> x ∈ b -> x ∈ concat ls).
  { intros i b Hi Hx. apply list_elem_of_In, in_concat. exists b.
    split; apply list_elem_of_In; [by eapply list_elem_of_lookup_2|done]. }
  destruct j as [|j], k as [|k]; simpl in *; simplify_eq.
  - done.
  - exfalso. eapply Hdis; eauto.
  - exfalso. eapply Hdis; eauto.
  - f_equal. eauto.
Qed.

(** C3: for a buffer of [n >= 1] transitions, a batch size [b >= 1] and any
    shuffle [indices] of [0, n), [generate_batches] returns exactly
    [ceil(n/b)] batches; each holds between 1 and [b] indices and every batch
    but the last holds exactly [b]; the batches are the consecutive chunks of
    the shuffle, are pairwise disjoint, and together hold every index of
    [0, n) exactly once. *)
Theorem generate_batches_partition (m : PPOMemory) (indices : list nat) (n b : nat) :
  1 <= n -> 1 <= b ->
  length (states m) = n -> batch_size m = b ->
  indices ≡ₚ seq 0 n ->
  exists bt,
    generate_batches m indices = Some bt /\
    length (batches bt) = (n + b - 1) / b /\
    (forall k batch, batches bt !! k = Some batch ->
       1 <= length batch <= b /\
       (S k < length (batches bt) -> length batch = b)) /\
    concat (batches bt) = indices /\
    (forall j k bj bk i,
       batches bt !! j = Some bj -> batches bt !! k = Some bk ->
       i ∈ bj -> i ∈ bk -> j = k) /\
    concat (batches bt) ≡ₚ seq 0 n /\
    NoDup (concat (batches bt)) /\
    (forall i, i ∈ concat (batches bt) <-> i < n).
Proof.
  intros Hn Hb Hlen Hbs Hperm.
  assert (Hli : length indices = n).
  { rewrite Hperm. apply length_seq. }
  unfold generate_batches, arange. rewrite Hlen, Hbs.
  destruct (Nat.eqb_spec b 0) as [->|_]; [lia|]. simpl.
  eexists. split; [reflexivity|]. simpl.
  assert (Hcat : concat (map (fun i => slice indices i (i + b))
                          (arange_from n 0 n b)) = indices).
  { rewrite <- Hli. rewrite arange_from_concat by lia. done. }
  assert (Hnd : NoDup indices).
  { rewrite Hperm. apply NoDup_seq. }
  split.
  { rewrite length_map, arange_from_length by lia. f_equal. lia. }
  split.
  { intros k batch Hk. rewrite list_lookup_fmap in Hk.
    destruct (arange_from n 0 n b !! k) as [i|] eqn:Hi; [|done].
    simpl in Hk. injection Hk as <-.
    apply arange_from_lookup in Hi as [-> Hi].
    rewrite slice_length, Hli. split; [lia|].
    rewrite length_map. intros Hk.
    destruct (lookup_lt_is_Some_2 (arange_from n 0 n b) (S k) Hk) as [i' Hi'].
    apply arange_from_lookup in Hi' as [-> Hi']. lia. }
  split; [done|].
  split.
  { intros j k bj bk i Hj Hk. eapply concat_NoDup_disjoint; eauto.
    by rewrite Hcat. }
  rewrite Hcat. split; [done|]. split; [done|].
  intros i. rewrite Hperm, elem_of_seq. lia.
Qed.

(** The scenario of the specification: 200 transitions in batches of 64, on
    the identity shuffle. *)
Lemma generate_batches_partition_witness :
  exists bt,
    generate_batches (mkMemory (replicate 200 []) (replicate 200 0%R) (replicate 200 0%R)
       (replicate 200 []) (replicate 200 1%R) (replicate 200 false) 64) (seq 0 200)
      = Some bt /\
    length (batches bt) = (200 + 64 - 1) / 64 /\
    (forall k batch, batches bt !! k = Some batch ->
       1 <= length batch <= 64 /\
       (S k < length (batches bt) -> length batch = 64)) /\
    concat (batches bt) = seq 0 200 /\
    (forall j k bj bk i,
       batches bt !! j = Some bj -> batches bt !! k = Some bk ->
       i ∈ bj -> i ∈ bk -> j = k) /\
    concat (batches bt) ≡ₚ seq 0 200 /\
    NoDup (concat (batches bt)) /\
    (forall i, i ∈ concat (batches bt) <-> i < 200).
Proof.
  apply (generate_batches_partition
           (mkMemory (replicate 200 []) (replicate 200 0%R) (replicate 200 0%R)
       (replicate 200 []) (replicate 200 1%R) (replicate 200 false) 64) (seq 0 200) 200 64).
  - lia.
  - lia.
  - reflexivity.
  - reflexivity.
  - reflexivity.
Defined.

End Batching.

(** ** Generalised advantage estimation *)

Section GAE.

Variables (gamma lambda : R) (reward value : list R) (done : list bool).

Local Abbreviation delta := (td_residual gamma reward value done).
Local Abbreviation closed := (discounted_td_sum gamma lambda reward value done).
Local Abbreviation step := (gae_step gamma lambda reward value done).

Lemma Rsum_scale {A} (c : R) (f : A -> R) (l : list A) :
  Rsum (map (fun k => c * f k) l) = c * Rsum (map f l).
Proof.
  induction l as [|x l IH]; simpl; [lra|]. rewrite IH. lra.
Qed.

Lemma closed_last t : (length reward - 1 <= t)%nat -> closed t = 0.
Proof.
  intros Ht. unfold discounted_td_sum.
  replace (length reward - 1 - t)%nat with 0%nat by lia. reflexivity.
Qed.

Lemma closed_unfold t :
  (t < length reward - 1)%nat ->
  closed t = delta t + gamma * lambda * closed (S t).
Proof.
  intros Ht. unfold discounted_td_sum.
  replace (length reward - 1 - t)%nat with (S (length reward - 1 - S t)) by lia.
  simpl seq. simpl map. simpl Rsum. rewrite Nat.sub_diag. simpl pow.
  rewrite <- Rsum_scale. f_equal; [lra|]. f_equal.
  apply map_ext_in. intros k Hk. apply in_seq in Hk.
  replace (k - t)%nat with (S (k - S t)) by lia. simpl. lra.
Qed.

Lemma gae_step_Some (adv : list R) (last : R) (t : nat) :
  length value = length reward -> length done = length reward ->
  length adv = length reward -> (t < length reward - 1)%nat ->
  step (adv, last) t
  = Some (<[t := delta t + gamma * lambda * last]> adv,
          delta t + gamma * lambda * last).
Proof.
  intros Hv Hd Ha Ht. unfold gae_step, td_residual.
  destruct (lookup_lt_is_Some_2 reward t) as [r Hr]; [lia|].
  destruct (lookup_lt_is_Some_2 value (S t)) as [v' Hv']; [lia|].
  destruct (lookup_lt_is_Some_2 done t) as [d Hdn]; [lia|].
  destruct (lookup_lt_is_Some_2 value t) as [v Hvt]; [lia|].
  destruct (lookup_lt_is_Some_2 adv t) as [x Hx]; [lia|].
  rewrite !nth_lookup, Hr, Hv', Hdn, Hvt. simpl. rewrite Hx. reflexivity.
Qed.

(** The loop from index [k - 1] down to 0, entered with [last_adv] equal to
    the closed form at [k]: the entries below [k] receive the closed form and
    the others are not written. *)
Lemma gae_fold (k : nat) : forall (adv : list R) (last : R),
  length value = length reward -> length done = length reward ->
  length adv = length reward -> (k <= length reward - 1)%nat ->
  last = closed k ->
  exists adv' last',
    foldM step (adv, last) (reverse (seq 0 k)) = Some (adv', last') /\
    length adv' = length reward /\
    (forall j, (j < k)%nat -> adv' !! j = Some (closed j)) /\
    (forall j, (k <= j)%nat -> adv' !! j = adv !! j).
Proof.
  induction k as [|k IH]; intros adv last Hv Hd Ha Hk Hlast.
  - exists adv, last. simpl. repeat split; auto. intros j Hj. lia.
  - rewrite seq_S, reverse_snoc. simpl.
    rewrite gae_step_Some by (auto; lia). simpl.
    assert (Hnew : delta k + gamma * lambda * last = closed k).
    { rewrite Hlast. symmetry. apply closed_unfold. lia. }
    rewrite Hnew.
    destruct (IH (<[k := closed k]> adv) (closed k)) as (adv' & last' & Hf & Hl & Hlo & Hhi);
      auto; [by rewrite length_insert|lia|].
    exists adv', last'. repeat split; auto.
    + intros j Hj. destruct (decide (j = k)) as [->|Hne].
      * rewrite Hhi by lia. apply list_lookup_insert_eq. lia.
      * apply Hlo. lia.
    + intros j Hj. rewrite Hhi by lia. apply list_lookup_insert_ne. lia.
Qed.

End GAE.

(** C2: on aligned arrays of length [n >= 1] the GAE loop of [learn] returns
    an array of length [n] whose last entry is the zero it was pre-filled
    with (on any pre-filled array the loop leaves the last entry as it was),
    whose entry [t < n-1] is [delta_t + gamma * lambda * advantage[t+1]], and
    therefore the discounted sum of the TD residuals from [t] to [n-2]. *)
Theorem gae_recursion (gamma lambda : R) (reward value : list R)
    (done : list bool) (n : nat) :
  (1 <= n)%nat ->
  length reward = n -> length value = n -> length done = n ->
  exists advantage,
    raw_advantage gamma lambda reward value done = Some advantage /\
    length advantage = n /\
    advantage !! (n - 1)%nat = Some 0 /\
    (forall init, length init = n ->
       exists adv', gae_loop gamma lambda reward value done init = Some adv' /\
                    adv' !! (n - 1)%nat = init !! (n - 1)%nat) /\
    (forall t, (t < n - 1)%nat ->
       advantage !! t =
         Some (td_residual gamma reward value done t
               + gamma * lambda * nth (S t) advantage 0)) /\
    (forall t, (t < n - 1)%nat ->
       advantage !! t = Some (discounted_td_sum gamma lambda reward value done t)).
Proof.
  intros Hn Hr Hv Hd. subst n.
  assert (Hloop : forall init, length init = length reward ->
    exists adv', gae_loop gamma lambda reward value done init = Some adv' /\
      length adv' = length reward /\
      (forall j, (j < length reward - 1)%nat ->
         adv' !! j = Some (discounted_td_sum gamma lambda reward value done j)) /\
      adv' !! (length reward - 1)%nat = init !! (length reward - 1)%nat).
  { intros init Hi.
    destruct (gae_fold gamma lambda reward value done (length reward - 1) init 0)
      as (adv' & last' & Hf & Hl & Hlo & Hhi); auto.
    { symmetry. apply closed_last. lia. }
    exists adv'. unfold gae_loop. rewrite Hf. simpl. repeat split; auto. }
  destruct (Hloop (replicate (length reward) 0)) as (adv & Hrun & Hl & Hlo & Hlast).
  { apply length_replicate. }
  exists adv. split; [exact Hrun|]. split; [exact Hl|].
  assert (Hz : adv !! (length reward - 1)%nat = Some 0).
  { rewrite Hlast. apply lookup_replicate_2. lia. }
  split; [exact Hz|]. split.
  { intros init Hi. destruct (Hloop init Hi) as (adv' & H1 & _ & _ & H2). eauto. }
  split; [|exact Hlo].
  intros t Ht. rewrite (Hlo t Ht). f_equal.
  rewrite (closed_unfold gamma lambda reward value done t Ht). f_equal. f_equal.
  rewrite nth_lookup.
  destruct (decide (S t < length reward - 1)%nat) as [Hlt|Hge].
  - rewrite (Hlo (S t) Hlt). reflexivity.
  - replace (S t) with (length reward - 1)%nat by lia. rewrite Hz. simpl.
    apply closed_last. lia.
Qed.

(** The scenario of the specification: four transitions, the last one
    terminal. *)
Lemma gae_recursion_witness :
  exists advantage,
    raw_advantage 0.99 0.95 [1; 1; 1; 1] [0; 0; 0; 0] [false; false; false; true]
      = Some advantage /\
    length advantage = 4%nat /\
    advantage !! (4 - 1)%nat = Some 0 /\
    (forall init, length init = 4%nat ->
       exists adv', gae_loop 0.99 0.95 [1; 1; 1; 1] [0; 0; 0; 0]
                      [false; false; false; true] init = Some adv' /\
                    adv' !! (4 - 1)%nat = init !! (4 - 1)%nat) /\
    (forall t, (t < 4 - 1)%nat ->
       advantage !! t =
         Some (td_residual 0.99 [1; 1; 1; 1] [0; 0; 0; 0] [false; false; false; true] t
               + 0.99 * 0.95 * nth (S t) advantage 0)) /\
    (forall t, (t < 4 - 1)%nat ->
       advantage !! t =
         Some (discounted_td_sum 0.99 0.95 [1; 1; 1; 1] [0; 0; 0; 0]
                 [false; false; false; true] t)).
Proof.
  apply (gae_recursion 0.99 0.95 [1; 1; 1; 1] [0; 0; 0; 0]
           [false; false; false; true] 4).
  - lia.
  - reflexivity.
  - reflexivity.
  - reflexivity.
Defined.

Example gae_scenario :
  raw_advantage 0.99 0.95 [1; 1; 1; 1] [0; 0; 0; 0] [false; false; false; true]
  = Some [2.82504025; 1.9405; 1; 0].
Proof.
  unfold raw_advantage, gae_loop. simpl.
  unfold int_of_bool. repeat f_equal; lra.
Qed.

(** ** Advantage normalisation *)

Section Normalisation.

Lemma Rsum_shift_scale (m c : R) (l : list R) :
  Rsum (map (fun x => (x - m) / c) l) = (Rsum l - INR (length l) * m) / c.
Proof.
  induction l as [|x l IH].
  - simpl. lra.
  - change (length (x :: l)) with (S (length l)). rewrite S_INR.
    simpl. rewrite IH. lra.
Qed.

Lemma Rsum_sq_nonneg {A} (f : A -> R) (l : list A) :
  0 <= Rsum (map (fun x => f x ^ 2) l).
Proof.
  induction l as [|x l IH]; simpl; [lra|].
  pose proof (pow2_ge_0 (f x)). simpl in *. lra.
Qed.

Lemma INR_length_pos {A} (l : list A) : l <> [] -> 0 < INR (length l).
Proof.
  destruct l; [done|]. intros _. apply lt_0_INR. simpl. lia.
Qed.

Lemma Rvar_nonneg (l : list R) : l <> [] -> 0 <= Rvar l.
Proof.
  intros Hl. unfold Rvar, Rmean. rewrite length_map.
  apply Rmult_le_pos; [apply Rsum_sq_nonneg|].
  left. apply Rinv_0_lt_compat, INR_length_pos, Hl.
Qed.

Lemma Rstd_nonneg (l : list R) : 0 <= Rstd l.
Proof. apply sqrt_pos. Qed.

Lemma normalize_advantage_length (l : list R) :
  length (normalize_advantage l) = length l.
Proof. apply length_map. Qed.

Lemma Rmean_normalize (l : list R) :
  l <> [] -> Rmean (normalize_advantage l) = 0.
Proof.
  intros Hl. pose proof (INR_length_pos l Hl) as Hn.
  unfold Rmean at 1. rewrite normalize_advantage_length.
  unfold normalize_advantage. rewrite Rsum_shift_scale.
  unfold Rmean. field. split; [lra|].
  pose proof (Rstd_nonneg l). lra.
Qed.

Lemma Rvar_normalize (l : list R) :
  l <> [] ->
  Rvar (normalize_advantage l) = Rvar l / (Rstd l + 1e-8) ^ 2.
Proof.
  intros Hl. pose proof (INR_length_pos l Hl) as Hn.
  pose proof (Rstd_nonneg l) as Hs.
  unfold Rvar at 1. rewrite (Rmean_normalize l Hl).
  unfold Rmean at 1. rewrite length_map, normalize_advantage_length.
  unfold normalize_advantage. rewrite map_map.
  rewrite (map_ext _ (fun x => / (Rstd l + 1e-8) ^ 2 * (x - Rmean l) ^ 2)).
  2:{ intros x. field. lra. }
  rewrite Rsum_scale. unfold Rvar, Rmean. rewrite length_map.
  field. split; lra.
Qed.

Lemma Rstd_normalize (l : list R) :
  l <> [] ->
  Rstd (normalize_advantage l) = Rstd l / (Rstd l + 1e-8).
Proof.
  intros Hl. pose proof (Rstd_nonneg l) as Hs.
  unfold Rstd at 1. rewrite (Rvar_normalize l Hl).
  rewrite sqrt_div_alt by (apply pow_lt; lra).
  rewrite sqrt_pow2 by lra. reflexivity.
Qed.

Lemma Rstd_normalize_gap (l : list R) :
  l <> [] ->
  Rabs (Rstd (normalize_advantage l) - 1) = 1e-8 / (Rstd l + 1e-8).
Proof.
  intros Hl. pose proof (Rstd_nonneg l) as Hs. rewrite (Rstd_normalize l Hl).
  replace (Rstd l / (Rstd l + 1e-8) - 1) with (- (1e-8 / (Rstd l + 1e-8)))
    by (field; lra).
  rewrite Rabs_Ropp. apply Rabs_pos_eq.
  apply Rmult_le_pos; [lra|]. left. apply Rinv_0_lt_compat. lra.
Qed.

End Normalisation.

(** C4, as the code has it: for a non-empty raw advantage array with
    population standard deviation [sigma], the normalised array has mean 0
    and population standard deviation [sigma / (sigma + 1e-8)]; that is
    within 1e-6 of 1 exactly when [sigma >= 1e-2 - 1e-8], in particular
    whenever [sigma >= 0.01]. *)
Theorem normalize_advantage_moments (advantage : list R) :
  advantage <> [] ->
  Rmean (normalize_advantage advantage) = 0 /\
  Rstd (normalize_advantage advantage) = Rstd advantage / (Rstd advantage + 1e-8) /\
  (Rabs (Rstd (normalize_advantage advantage) - 1) <= 1e-6
   <-> 1e-2 - 1e-8 <= Rstd advantage) /\
  (0.01 <= Rstd advantage ->
   Rabs (Rstd (normalize_advantage advantage) - 1) <= 1e-6).
Proof.
  intros Hl. pose proof (Rstd_nonneg advantage) as Hs.
  assert (Hiff : Rabs (Rstd (normalize_advantage advantage) - 1) <= 1e-6
                 <-> 1e-2 - 1e-8 <= Rstd advantage).
  { rewrite (Rstd_normalize_gap _ Hl).
    assert (Hc : 0 < Rstd advantage + 1e-8) by lra.
    split; intros H.
    - apply (Rmult_le_compat_r _ _ _ (Rlt_le _ _ Hc)) in H.
      unfold Rdiv in H. rewrite Rmult_assoc, Rinv_l in H by lra. lra.
    - apply (Rmult_le_reg_r (Rstd advantage + 1e-8)); [lra|].
      unfold Rdiv. rewrite Rmult_assoc, Rinv_l by lra. lra. }
  split; [exact (Rmean_normalize _ Hl)|].
  split; [exact (Rstd_normalize _ Hl)|].
  split; [exact Hiff|].
  intros H. apply Hiff. lra.
Qed.

Lemma normalize_advantage_moments_witness :
  Rmean (normalize_advantage [1; 0]) = 0 /\
  Rstd (normalize_advantage [1; 0]) = Rstd [1; 0] / (Rstd [1; 0] + 1e-8) /\
  (Rabs (Rstd (normalize_advantage [1; 0]) - 1) <= 1e-6
   <-> 1e-2 - 1e-8 <= Rstd [1; 0]) /\
  (0.01 <= Rstd [1; 0] ->
   Rabs (Rstd (normalize_advantage [1; 0]) - 1) <= 1e-6).
Proof.
  apply (normalize_advantage_moments [1; 0]). discriminate.
Defined.

Lemma Rstd_tiny : Rstd [2e-8; 0] = 1e-8.
Proof.
  unfold Rstd. replace (Rvar [2e-8; 0]) with (1e-8 * 1e-8).
  - apply sqrt_square. lra.
  - unfold Rvar, Rmean. simpl. field.
Qed.

(** C4 as stated fails: the buffer with rewards [2e-8; 0] and zero values has
    the raw advantage array [2e-8; 0], of non-zero variance, and its
    normalised array has population standard deviation 1/2. *)
Lemma normalize_advantage_small_variance :
  raw_advantage 0.99 0.95 [2e-8; 0] [0; 0] [false; false] = Some [2e-8; 0] /\
  Rvar [2e-8; 0] <> 0 /\
  Rstd (normalize_advantage [2e-8; 0]) = 1 / 2 /\
  ~ Rabs (Rstd (normalize_advantage [2e-8; 0]) - 1) <= 1e-6.
Proof.
  assert (Hhalf : Rstd (normalize_advantage [2e-8; 0]) = 1 / 2).
  { rewrite Rstd_normalize by discriminate. rewrite Rstd_tiny. lra. }
  split.
  { unfold raw_advantage, gae_loop. simpl. unfold int_of_bool.
    repeat f_equal; lra. }
  split.
  { unfold Rvar, Rmean. simpl. lra. }
  split; [exact Hhalf|].
  rewrite Hhalf. replace (1 / 2 - 1) with (- (1 / 2)) by lra.
  rewrite Rabs_Ropp, Rabs_pos_eq by lra. lra.
Qed.

(** ** Sampling an action *)

Section Sampling.

Lemma tanh_bound (x : R) : -1 < tanh x < 1.
Proof.
  unfold tanh, sinh, cosh.
  pose proof (exp_pos x) as Ha. pose proof (exp_pos (- x)) as Hb.
  set (c := (exp x + exp (- x)) / 2).
  set (s := (exp x - exp (- x)) / 2).
  assert (Hc : 0 < c) by (unfold c; lra).
  assert (Hs : - c < s < c) by (unfold c, s; lra).
  assert (Hsc : s / c * c = s) by (field; lra).
  split.
  - apply (Rmult_lt_reg_r c); [exact Hc|]. rewrite Hsc. lra.
  - apply (Rmult_lt_reg_r c); [exact Hc|]. rewrite Hsc. lra.
Qed.

Lemma sqrt_2PI_pos : 0 < sqrt (2 * PI).
Proof. apply sqrt_lt_R0. pose proof PI_RGT_0. lra. Qed.

(** torch's formula is the logarithm of the density. *)
Lemma log_density_ln_pdf (mu sigma x : R) :
  0 < sigma -> log_density mu sigma x = ln (gaussian_pdf mu sigma x).
Proof.
  intros Hs. pose proof sqrt_2PI_pos as Hp. unfold log_density, gaussian_pdf.
  rewrite ln_mult; [|apply Rinv_0_lt_compat; nra|apply exp_pos].
  rewrite ln_exp, ln_Rinv by nra.
  rewrite ln_mult by lra. lra.
Qed.

Lemma Rsum_log_prob (mean std point : list R) :
  Forall (fun s => 0 < s) std ->
  Rsum (log_prob (mkNormal mean std) point) = sum_log_pdf mean std point.
Proof.
  unfold log_prob. simpl. intros Hstd. revert mean point.
  induction Hstd as [|s std Hs Hstd IH]; intros mean point.
  - destruct mean; reflexivity.
  - destruct mean as [|m mean]; [reflexivity|].
    destruct point as [|x point]; [reflexivity|].
    simpl. rewrite IH, log_density_ln_pdf by exact Hs. reflexivity.
Qed.

Lemma clamped_std_pos (floor : R) (std : list R) :
  0 < floor -> Forall (fun s => 0 < s) (map (fun s => Rmax s floor) std).
Proof.
  intros Hf. apply List.Forall_forall. intros s Hs. apply in_map_iff in Hs as (x & <- & _).
  pose proof (Rmax_r x floor). lra.
Qed.

Lemma zero_actor_forward : actor_forward zero_actor [0] = ([0], [1]).
Proof.
  unfold actor_forward, zero_actor, Linear_forward, ReLU, dot. simpl.
  rewrite exp_0. f_equal. f_equal. lra.
Qed.

End Sampling.

(** C1, as the code has it: [sample_normal] draws [raw_action] from
    [Normal(mean, std)] with [std] clamped at 1e-6 from below, returns the
    action [2 * tanh(raw_action)], and returns as [log_prob] the sum over the
    action dimensions of the logarithm of the normal density evaluated at the
    returned (transformed) action, with no tanh Jacobian term. *)
Theorem sample_normal_log_prob_at_action {Adam} (net : ActorNetwork Adam)
    (state : State) (sample : Normal -> list R) :
  let dist := mkNormal (actor_forward net state).1
                (map (fun s => Rmax s 1e-6) (actor_forward net state).2) in
  let raw_action := sample dist in
  let action := map (fun x => 2 * tanh x) raw_action in
  Forall (fun s => 1e-6 <= s) (scale dist) /\
  sample_normal net state sample
  = (action, sum_log_pdf (loc dist) (scale dist) action, dist).
Proof.
  intros dist raw_action action. subst dist raw_action action.
  unfold sample_normal. destruct (actor_forward net state) as [mean std]. simpl.
  split.
  - apply List.Forall_forall. intros s Hs. apply in_map_iff in Hs as (x & <- & _).
    apply Rmax_r.
  - rewrite Rsum_log_prob; [reflexivity|]. apply clamped_std_pos. lra.
Qed.

(** C1 as stated fails: with mean 0, standard deviation 1 and the draw 3, the
    returned log-probability is the density at [2 * tanh 3], not at 3. *)
Lemma sample_normal_log_prob_not_raw :
  (sample_normal zero_actor [0] (fun _ => [3])).1.1 = [2 * tanh 3] /\
  (sample_normal zero_actor [0] (fun _ => [3])).2 = mkNormal [0] [1] /\
  (sample_normal zero_actor [0] (fun _ => [3])).1.2
  <> raw_sample_log_prob zero_actor [0] (fun _ => [3]).
Proof.
  unfold sample_normal, raw_sample_log_prob.
  rewrite zero_actor_forward. simpl.
  assert (Hmax : Rmax 1 1e-6 = 1) by (apply Rmax_left; lra).
  rewrite Hmax. repeat split.
  rewrite <- log_density_ln_pdf by lra.
  unfold log_density. pose proof (tanh_bound 3) as Ht.
  intros Heq. nra.
Qed.

(** C9: every component of the action returned by [sample_normal], and so by
    [choose_action], lies in [-2, 2]. *)
Theorem action_bounded {Adam} (a : Agent Adam) (net : ActorNetwork Adam)
    (observation : State) (sample : Normal -> list R) :
  Forall (fun x => -2 <= x <= 2) (sample_normal net observation sample).1.1 /\
  Forall (fun x => -2 <= x <= 2) (choose_action a observation sample).1.1 /\
  (choose_action a observation sample).1.1
  = (sample_normal (actor a) observation sample).1.1.
Proof.
  assert (Hb : forall l, Forall (fun x => -2 <= x <= 2) (map (fun x => 2 * tanh x) l)).
  { intros l. apply List.Forall_forall. intros y Hy.
    apply in_map_iff in Hy as (x & <- & _). pose proof (tanh_bound x). lra. }
  assert (Hs : forall n : ActorNetwork Adam,
    Forall (fun x => -2 <= x <= 2) (sample_normal n observation sample).1.1).
  { intros n. unfold sample_normal.
    destruct (actor_forward n observation) as [mean std]. simpl. apply Hb. }
  assert (He : (choose_action a observation sample).1.1
               = (sample_normal (actor a) observation sample).1.1).
  { unfold choose_action.
    destruct (sample_normal (actor a) observation sample) as [[action lp] d].
    reflexivity. }
  split; [apply Hs|]. split; [|exact He]. rewrite He. apply Hs.
Qed.

(** ** The update loop *)

Section FoldM.

Context {A B : Type} (f : A -> B -> option A).

Lemma foldM_snoc (a : A) (l : list B) (x : B) :
  foldM f a (l ++ [x]) = foldM f a l ≫= fun a' => f a' x.
Proof.
  revert a. induction l as [|y l IH]; intros a; simpl.
  - destruct (f a x); reflexivity.
  - destruct (f a y) as [a'|]; simpl; [apply IH|reflexivity].
Qed.

Lemma foldM_invariant (P : A -> Prop) :
  (forall a x a', P a -> f a x = Some a' -> P a') ->
  forall l a a', P a -> foldM f a l = Some a' -> P a'.
Proof.
  intros Hstep l. induction l as [|x l IH]; intros a a' Ha; simpl.
  - intros [= <-]. exact Ha.
  - destruct (f a x) as [a1|] eqn:Hf; simpl; [|done].
    apply IH. eapply Hstep; eauto.
Qed.

Lemma foldM_total (l : list B) :
  (forall a x, x ∈ l -> is_Some (f a x)) ->
  forall a, is_Some (foldM f a l).
Proof.
  induction l as [|x l IH]; intros Hstep a; simpl; [by eexists|].
  destruct (Hstep a x) as [a1 Hf]; [left|]. rewrite Hf. simpl.
  apply IH. intros a2 y Hy. apply Hstep. by right.
Qed.

Lemma foldM_commute (g : A -> A) :
  (forall a x, f (g a) x = g <$> f a x) ->
  forall l a, foldM f (g a) l = g <$> foldM f a l.
Proof.
  intros Hg l. induction l as [|x l IH]; intros a; simpl; [reflexivity|].
  rewrite Hg. destruct (f a x) as [a1|]; simpl; [apply IH|reflexivity].
Qed.

End FoldM.

Section Learn.

Context {Adam : Type}.
Variable backward_step :
  (ActorNetwork Adam * CriticNetwork Adam -> R) ->
  ActorNetwork Adam * CriticNetwork Adam -> ActorNetwork Adam * CriticNetwork Adam.

Implicit Types a : Agent Adam.

Lemma set_networks_id a : set_networks a (actor a, critic a) = a.
Proof. destruct a; reflexivity. Qed.

(** A batch iteration changes the two networks and nothing else. *)
Lemma learn_batch_frame bt advantage a batch a' :
  learn_batch backward_step bt advantage a batch = Some a' ->
  a' = set_networks a (actor a', critic a').
Proof.
  unfold learn_batch. intros H.
  destruct (gather (state_arr bt) batch); simpl in H; [|done].
  destruct (gather (old_prob_arr bt) batch); simpl in H; [|done].
  destruct (gather (action_arr bt) batch); simpl in H; [|done].
  destruct (gather advantage batch); simpl in H; [|done].
  injection H as <-. reflexivity.
Qed.

Lemma learn_epoch_frame a indices a' :
  learn_epoch backward_step a indices = Some a' ->
  a' = set_networks a (actor a', critic a').
Proof.
  unfold learn_epoch. intros H.
  destruct (generate_batches (memory a) indices) as [bt|]; simpl in H; [|done].
  destruct (epoch_raw_advantage a bt) as [adv|]; simpl in H; [|done].
  revert H. apply (foldM_invariant _ (fun x => x = set_networks a (actor x, critic x))).
  - intros x batch x' Hx Hb. apply learn_batch_frame in Hb.
    rewrite Hb, Hx. reflexivity.
  - symmetry. apply set_networks_id.
Qed.

Lemma learn_epochs_frame a shuffle k a' :
  learn_epochs backward_step a shuffle k = Some a' ->
  a' = set_networks a (actor a', critic a').
Proof.
  unfold learn_epochs.
  apply (foldM_invariant _ (fun x => x = set_networks a (actor x, critic x))).
  - intros x e x' Hx He. apply learn_epoch_frame in He.
    rewrite He, Hx. reflexivity.
  - symmetry. apply set_networks_id.
Qed.

Lemma learn_epochs_S a shuffle k :
  learn_epochs backward_step a shuffle (S k)
  = learn_epochs backward_step a shuffle k
      ≫= fun a_k => learn_epoch backward_step a_k (shuffle k).
Proof.
  unfold learn_epochs. rewrite seq_S. simpl.
  apply (foldM_snoc (fun a' e => learn_epoch backward_step a' (shuffle e))).
Qed.

(** *** [learn] runs to completion on a well-formed buffer *)

Lemma gather_is_Some {A} (arr : list A) (batch : list nat) :
  Forall (fun i => (i < length arr)%nat) batch -> is_Some (gather arr batch).
Proof.
  intros H. apply mapM_is_Some_2. eapply Forall_impl; [exact H|].
  intros i Hi. simpl. by apply lookup_lt_is_Some_2.
Qed.

Lemma gather_length {A} (arr : list A) (batch : list nat) (l : list A) :
  gather arr batch = Some l -> length l = length batch.
Proof. intros H. symmetry. eapply length_mapM, H. Qed.

Lemma slice_elem {A} (l : list A) (i j : nat) (x : A) :
  x ∈ slice l i j -> x ∈ l.
Proof.
  unfold slice. intros H.
  by apply (subseteq_drop i l), (subseteq_take (j - i)).
Qed.

Lemma raw_advantage_total (g l : R) (reward value : list R) (done : list bool) :
  length value = length reward -> length done = length reward ->
  exists adv, raw_advantage g l reward value done = Some adv /\
              length adv = length reward.
Proof.
  intros Hv Hd.
  destruct (gae_fold g l reward value done (length reward - 1)
              (replicate (length reward) 0) 0)
    as (adv & last & Hf & Hl & _); auto.
  - apply length_replicate.
  - symmetry. apply closed_last. lia.
  - exists adv. unfold raw_advantage, gae_loop. rewrite Hf. auto.
Qed.

Lemma learn_batch_total bt advantage a batch (n : nat) :
  length (state_arr bt) = n -> length (old_prob_arr bt) = n ->
  length (action_arr bt) = n -> length advantage = n ->
  Forall (fun i => (i < n)%nat) batch ->
  is_Some (learn_batch backward_step bt advantage a batch).
Proof.
  intros Hs Hp Ha Hadv Hb. unfold learn_batch.
  destruct (gather_is_Some (state_arr bt) batch) as [x1 ->]; [by rewrite Hs|].
  destruct (gather_is_Some (old_prob_arr bt) batch) as [x2 ->]; [by rewrite Hp|].
  destruct (gather_is_Some (action_arr bt) batch) as [x3 ->]; [by rewrite Ha|].
  destruct (gather_is_Some advantage batch) as [x4 ->]; [by rewrite Hadv|].
  simpl. by eexists.
Qed.

Lemma learn_epoch_total a indices :
  mem_inv (memory a) -> (1 <= batch_size (memory a))%nat ->
  indices ≡ₚ seq 0 (length (states (memory a))) ->
  is_Some (learn_epoch backward_step a indices).
Proof.
  intros (Hp & Hv & Ha & Hr & Hd) Hb Hperm.
  unfold learn_epoch, generate_batches, arange.
  destruct (Nat.eqb_spec (batch_size (memory a)) 0) as [H0|_]; [lia|]. simpl.
  unfold epoch_raw_advantage. simpl.
  destruct (raw_advantage_total (gamma a) (gae_lambda a) (rewards (memory a))
              (vals (memory a)) (dones (memory a))) as (adv & -> & Hadv); [lia..|].
  simpl. apply foldM_total. intros a1 batch Hin.
  apply (learn_batch_total _ _ _ _ (length (states (memory a)))); simpl; auto.
  - rewrite normalize_advantage_length. lia.
  - apply Forall_forall. intros i Hi.
    apply list_elem_of_In, in_map_iff in Hin as (s & <- & _).
    apply slice_elem in Hi. rewrite Hperm in Hi. apply elem_of_seq in Hi. lia.
Qed.

Lemma learn_epochs_total a shuffle k :
  mem_inv (memory a) -> (1 <= batch_size (memory a))%nat ->
  (forall e, shuffle e ≡ₚ seq 0 (length (states (memory a)))) ->
  is_Some (learn_epochs backward_step a shuffle k).
Proof.
  intros Hinv Hb Hperm. induction k as [|k IH].
  - by eexists.
  - rewrite learn_epochs_S. destruct IH as [a_k Hk]. rewrite Hk. simpl.
    apply learn_epochs_frame in Hk as Hfr.
    assert (Hm : memory a_k = memory a) by (rewrite Hfr; reflexivity).
    apply learn_epoch_total; rewrite Hm; auto.
Qed.

Lemma learn_total a shuffle :
  mem_inv (memory a) -> (1 <= batch_size (memory a))%nat ->
  (forall e, shuffle e ≡ₚ seq 0 (length (states (memory a)))) ->
  is_Some (learn backward_step a shuffle).
Proof.
  intros Hinv Hb Hperm. unfold learn.
  destruct (learn_epochs_total a shuffle (n_epochs a)) as [a' ->]; auto.
Qed.

Lemma learn_cleared a shuffle a' :
  learn backward_step a shuffle = Some a' ->
  mem_empty (memory a') /\
  batch_size (memory a') = batch_size (memory a) /\
  exists nets, a' = set_memory (set_networks a nets) (clear_memory (memory a)).
Proof.
  unfold learn. intros H.
  destruct (learn_epochs backward_step a shuffle (n_epochs a)) as [a1|] eqn:He;
    simpl in H; [|done].
  injection H as <-. apply learn_epochs_frame in He.
  split; [by repeat split|]. rewrite He. simpl. split; [reflexivity|].
  by eexists.
Qed.

Lemma store_memory_inv (m : PPOMemory) state action prob val reward done :
  mem_inv m -> mem_inv (store_memory m state action prob val reward done).
Proof.
  intros (Hp & Hv & Ha & Hr & Hd). unfold mem_inv. simpl.
  rewrite !length_app. simpl. lia.
Qed.

Lemma clear_memory_inv (m : PPOMemory) : mem_inv (clear_memory m).
Proof. by repeat split. Qed.

Lemma reachable_inv a : reachable backward_step a -> mem_inv (memory a).
Proof.
  induction 1 as [| a s act p v r d _ IH | a r _ IH | a nets _ IH | a sh a' _ IH Hl].
  - by repeat split.
  - simpl. by apply store_memory_inv.
  - exact IH.
  - exact IH.
  - apply learn_cleared in Hl as (_ & _ & nets & ->). simpl. apply clear_memory_inv.
Qed.

(** *** [learn] never reads the running reward statistics *)

Lemma learn_batch_running bt advantage a rm rv batch :
  learn_batch backward_step bt advantage (set_running a rm rv) batch
  = (fun x => set_running x rm rv) <$> learn_batch backward_step bt advantage a batch.
Proof.
  unfold learn_batch.
  destruct (gather (state_arr bt) batch); simpl; [|reflexivity].
  destruct (gather (old_prob_arr bt) batch); simpl; [|reflexivity].
  destruct (gather (action_arr bt) batch); simpl; [|reflexivity].
  destruct (gather advantage batch); simpl; reflexivity.
Qed.

Lemma learn_epoch_running a rm rv indices :
  learn_epoch backward_step (set_running a rm rv) indices
  = (fun x => set_running x rm rv) <$> learn_epoch backward_step a indices.
Proof.
  unfold learn_epoch. simpl.
  destruct (generate_batches (memory a) indices) as [bt|]; simpl; [|reflexivity].
  change (epoch_raw_advantage (set_running a rm rv) bt)
    with (epoch_raw_advantage a bt).
  destruct (epoch_raw_advantage a bt) as [adv|]; simpl; [|reflexivity].
  apply (foldM_commute _ (fun x => set_running x rm rv)).
  intros x batch. apply learn_batch_running.
Qed.

Lemma learn_running a rm rv shuffle :
  learn backward_step (set_running a rm rv) shuffle
  = (fun x => set_running x rm rv) <$> learn backward_step a shuffle.
Proof.
  unfold learn, learn_epochs. simpl.
  rewrite (foldM_commute _ (fun x => set_running x rm rv)).
  - destruct (foldM _ a (seq 0 (n_epochs a))); reflexivity.
  - intros x e. apply learn_epoch_running.
Qed.

Lemma differ_only_in_running_stats_eq a1 a2 :
  differ_only_in_running_stats a1 a2 ->
  a2 = set_running a1 (running_mean a2) (running_var a2).
Proof.
  destruct a1, a2. unfold differ_only_in_running_stats. simpl.
  intros (-> & -> & -> & -> & -> & -> & -> & -> & ->). reflexivity.
Qed.

(** *** The critic loss of a batch *)

Lemma detached_residual (adv v : list R) :
  length v = length adv ->
  zip_with Rminus (zip_with Rplus adv v) v = adv.
Proof.
  revert v. induction adv as [|x adv IH]; intros [|y v] Hl; simpl in *; try done.
  rewrite IH by lia. f_equal. lra.
Qed.

(** C5: every agent reachable from a fresh one has its six per-field
    sequences of equal length; [store_memory] and [clear_memory] preserve
    that on any buffer; every call of [learn] that completes ends with all
    six sequences empty; and on such a buffer, with a batch size of at least
    1 and shuffles that are permutations, [learn] does complete. *)
Theorem buffer_invariant a :
  reachable backward_step a ->
  mem_inv (memory a) /\
  (forall m state action prob val reward done,
     mem_inv m -> mem_inv (store_memory m state action prob val reward done)) /\
  (forall m, mem_inv (clear_memory m) /\ mem_empty (clear_memory m)) /\
  (forall shuffle a',
     learn backward_step a shuffle = Some a' ->
     mem_empty (memory a') /\ mem_inv (memory a')) /\
  (forall shuffle,
     (1 <= batch_size (memory a))%nat ->
     (forall e, shuffle e ≡ₚ seq 0 (length (states (memory a)))) ->
     exists a', learn backward_step a shuffle = Some a' /\ mem_empty (memory a')).
Proof.
  intros Hr. pose proof (reachable_inv a Hr) as Hinv.
  split; [exact Hinv|].
  split; [intros; by apply store_memory_inv|].
  split; [intros m; split; [apply clear_memory_inv|by repeat split]|].
  split.
  - intros shuffle a' Hl. split.
    + by apply learn_cleared in Hl as (He & _).
    + apply (reachable_inv a'). eapply reach_learn; eauto.
  - intros shuffle Hb Hperm.
    destruct (learn_total a shuffle Hinv Hb Hperm) as [a' Hl].
    exists a'. split; [exact Hl|]. by apply learn_cleared in Hl as (He & _).
Qed.

(** C6: the agent on which epoch [k] of [learn] runs has the buffer the call
    started with, so the arrays epoch [k] reads and the raw advantage array
    it computes are those computed before any epoch; the batches of two
    epochs are the same chunks taken from the two shuffles. *)
Theorem epochs_same_raw_advantage a shuffle k a_k bt_0 bt_k :
  learn_epochs backward_step a shuffle k = Some a_k ->
  generate_batches (memory a) (shuffle 0%nat) = Some bt_0 ->
  generate_batches (memory a_k) (shuffle k) = Some bt_k ->
  learn_epochs backward_step a shuffle (S k)
    = learn_epoch backward_step a_k (shuffle k) /\
  memory a_k = memory a /\
  state_arr bt_k = state_arr bt_0 /\ action_arr bt_k = action_arr bt_0 /\
  old_prob_arr bt_k = old_prob_arr bt_0 /\ vals_arr bt_k = vals_arr bt_0 /\
  reward_arr bt_k = reward_arr bt_0 /\ dones_arr bt_k = dones_arr bt_0 /\
  epoch_raw_advantage a_k bt_k = epoch_raw_advantage a bt_0 /\
  (mem_inv (memory a) -> is_Some (epoch_raw_advantage a bt_0)) /\
  exists starts,
    batches bt_0
      = map (fun i => slice (shuffle 0%nat) i (i + batch_size (memory a))) starts /\
    batches bt_k
      = map (fun i => slice (shuffle k) i (i + batch_size (memory a))) starts.
Proof.
  intros Hk H0 Hbk.
  split; [rewrite learn_epochs_S, Hk; reflexivity|].
  apply learn_epochs_frame in Hk.
  assert (Hm : memory a_k = memory a) by (rewrite Hk; reflexivity).
  assert (Hg : gamma a_k = gamma a) by (rewrite Hk; reflexivity).
  assert (Hl : gae_lambda a_k = gae_lambda a) by (rewrite Hk; reflexivity).
  rewrite Hm in Hbk. unfold generate_batches in H0, Hbk.
  destruct (arange (length (states (memory a))) (batch_size (memory a)))
    as [starts|]; simpl in H0, Hbk; [|done].
  injection H0 as <-. injection Hbk as <-.
  unfold epoch_raw_advantage. simpl. rewrite Hg, Hl.
  split; [exact Hm|]. repeat (split; [reflexivity|]).
  split; [|by exists starts].
  intros (Hp & Hv & Ha & Hr & Hd).
  destruct (raw_advantage_total (gamma a) (gae_lambda a) (rewards (memory a))
              (vals (memory a)) (dones (memory a))) as (adv & -> & _); [lia..|].
  by eexists.
Qed.

(** C7: two agents that differ only in the running reward statistics take
    [learn] to the same outcome: either both calls fail, or both complete
    with the same networks and the same buffer, each agent keeping its own
    running statistics; in particular this holds for an agent before and
    after [normalize_reward]. *)
Theorem learn_ignores_running_stats a1 a2 shuffle :
  differ_only_in_running_stats a1 a2 ->
  learn backward_step a2 shuffle
    = (fun a' => set_running a' (running_mean a2) (running_var a2))
        <$> learn backward_step a1 shuffle /\
  (forall a1', learn backward_step a1 shuffle = Some a1' ->
     running_mean a1' = running_mean a1 /\ running_var a1' = running_var a1 /\
     exists a2', learn backward_step a2 shuffle = Some a2' /\
       actor a2' = actor a1' /\ critic a2' = critic a1' /\
       memory a2' = memory a1' /\
       running_mean a2' = running_mean a2 /\ running_var a2' = running_var a2) /\
  (forall reward, differ_only_in_running_stats a1 (normalize_reward a1 reward).1).
Proof.
  intros Hd. apply differ_only_in_running_stats_eq in Hd.
  assert (Heq : learn backward_step a2 shuffle
    = (fun a' => set_running a' (running_mean a2) (running_var a2))
        <$> learn backward_step a1 shuffle).
  { rewrite Hd at 1. apply learn_running. }
  split; [exact Heq|]. split.
  - intros a1' Hl. rewrite Heq, Hl. simpl.
    apply learn_cleared in Hl as (_ & _ & nets & ->). simpl.
    do 2 (split; [reflexivity|]). eexists. split; [reflexivity|].
    by repeat split.
  - intros reward. by repeat split.
Qed.

(** C10: in a batch iteration of [learn], where the states and the
    advantages are gathered at the same batch of indices, the residual
    [returns - critic_value] is the batch's advantage, and the value of the
    critic loss is the mean of the squared normalised advantages of the
    batch. *)
Theorem critic_loss_is_mean_squared_advantage a (bt : Batches)
    (advantage : list R) (batch : list nat) (sts : list State)
    (old_probs : list R) (acts : list (list R)) (adv : list R) :
  gather (state_arr bt) batch = Some sts ->
  gather advantage batch = Some adv ->
  let d := mkBatchData sts old_probs acts adv in
  let returns := zip_with Rplus adv (critic_value (critic a) sts) in
  zip_with Rminus returns (critic_value (critic a) sts) = adv /\
  critic_loss d (critic a) (critic a) = Rmean (map (fun x => x ^ 2) adv) /\
  total_loss a d (actor a, critic a)
    = actor_loss a d (actor a) + 0.5 * Rmean (map (fun x => x ^ 2) adv).
Proof.
  intros Hs Ha d returns. subst d returns.
  apply gather_length in Hs. apply gather_length in Ha.
  assert (Hres : zip_with Rminus (zip_with Rplus adv (critic_value (critic a) sts))
                   (critic_value (critic a) sts) = adv).
  { apply detached_residual. unfold critic_value. rewrite length_map. lia. }
  assert (Hloss : critic_loss (mkBatchData sts old_probs acts adv) (critic a) (critic a)
                  = Rmean (map (fun x => x ^ 2) adv)).
  { unfold critic_loss. simpl. rewrite Hres. reflexivity. }
  split; [exact Hres|]. split; [exact Hloss|].
  unfold total_loss. simpl. rewrite Hloss. reflexivity.
Qed.

End Learn.

(** ** The claims of the update loop on a concrete agent *)

Lemma buffer_invariant_witness :
  mem_inv (memory two_step_agent) /\
  (forall m state action prob val reward done,
     mem_inv m -> mem_inv (store_memory m state action prob val reward done)) /\
  (forall m, mem_inv (clear_memory m) /\ mem_empty (clear_memory m)) /\
  (forall shuffle a',
     learn count_steps two_step_agent shuffle = Some a' ->
     mem_empty (memory a') /\ mem_inv (memory a')) /\
  (forall shuffle,
     (1 <= batch_size (memory two_step_agent))%nat ->
     (forall e, shuffle e ≡ₚ seq 0 (length (states (memory two_step_agent)))) ->
     exists a', learn count_steps two_step_agent shuffle = Some a' /\
                mem_empty (memory a')).
Proof.
  apply (buffer_invariant count_steps two_step_agent).
  unfold two_step_agent, fresh_agent.
  apply reach_remember, reach_remember, reach_init.
Defined.

Lemma epochs_same_raw_advantage_witness :
  let a := two_step_agent in
  let a_1 := set_networks a (count_steps (fun _ => 0) (zero_actor, zero_critic)) in
  let bt_0 := mkBatches [[0]; [0]] [[0]; [0]] [0; 0] [0; 0] [1; 1] [false; true]
                [[0; 1]%nat] in
  let bt_1 := mkBatches [[0]; [0]] [[0]; [0]] [0; 0] [0; 0] [1; 1] [false; true]
                [[1; 0]%nat] in
  learn_epochs count_steps a alternating_shuffle 2
    = learn_epoch count_steps a_1 (alternating_shuffle 1) /\
  memory a_1 = memory a /\
  state_arr bt_1 = state_arr bt_0 /\ action_arr bt_1 = action_arr bt_0 /\
  old_prob_arr bt_1 = old_prob_arr bt_0 /\ vals_arr bt_1 = vals_arr bt_0 /\
  reward_arr bt_1 = reward_arr bt_0 /\ dones_arr bt_1 = dones_arr bt_0 /\
  epoch_raw_advantage a_1 bt_1 = epoch_raw_advantage a bt_0 /\
  (mem_inv (memory a) -> is_Some (epoch_raw_advantage a bt_0)) /\
  exists starts,
    batches bt_0
      = map (fun i => slice (alternating_shuffle 0) i (i + batch_size (memory a)))
          starts /\
    batches bt_1
      = map (fun i => slice (alternating_shuffle 1) i (i + batch_size (memory a)))
          starts.
Proof.
  intros a a_1 bt_0 bt_1.
  apply (epochs_same_raw_advantage count_steps a alternating_shuffle 1 a_1 bt_0 bt_1).
  - reflexivity.
  - reflexivity.
  - reflexivity.
Defined.

Lemma learn_ignores_running_stats_witness :
  let a1 := two_step_agent in
  let a2 := (normalize_reward two_step_agent 5).1 in
  let shuffle := alternating_shuffle in
  learn count_steps a2 shuffle
    = (fun a' => set_running a' (running_mean a2) (running_var a2))
        <$> learn count_steps a1 shuffle /\
  (forall a1', learn count_steps a1 shuffle = Some a1' ->
     running_mean a1' = running_mean a1 /\ running_var a1' = running_var a1 /\
     exists a2', learn count_steps a2 shuffle = Some a2' /\
       actor a2' = actor a1' /\ critic a2' = critic a1' /\
       memory a2' = memory a1' /\
       running_mean a2' = running_mean a2 /\ running_var a2' = running_var a2) /\
  (forall reward, differ_only_in_running_stats a1 (normalize_reward a1 reward).1).
Proof.
  intros a1 a2 shuffle.
  apply (learn_ignores_running_stats count_steps a1 a2 shuffle).
  unfold differ_only_in_running_stats. simpl. repeat split; reflexivity.
Defined.

Lemma critic_loss_is_mean_squared_advantage_witness :
  let bt := mkBatches [[0]; [0]] [[0]; [0]] [0; 0] [0; 0] [1; 1] [false; true]
              [[1; 0]%nat] in
  let d := mkBatchData [[0]; [0]] [0; 0] [[0]; [0]] [-1; 1] in
  let returns := zip_with Rplus [-1; 1] (critic_value (critic two_step_agent) [[0]; [0]]) in
  zip_with Rminus returns (critic_value (critic two_step_agent) [[0]; [0]]) = [-1; 1] /\
  critic_loss d (critic two_step_agent) (critic two_step_agent)
    = Rmean (map (fun x => x ^ 2) [-1; 1]) /\
  total_loss two_step_agent d (actor two_step_agent, critic two_step_agent)
    = actor_loss two_step_agent d (actor two_step_agent)
      + 0.5 * Rmean (map (fun x => x ^ 2) [-1; 1]).
Proof.
  intros bt.
  apply (critic_loss_is_mean_squared_advantage two_step_agent bt [1; -1] [1; 0]%nat
           [[0]; [0]] [0; 0] [[0]; [0]] [-1; 1]).
  - reflexivity.
  - reflexivity.
Defined.

(** One call of [learn] on the two-transition agent: one epoch, one batch,
    one optimiser step, and an empty buffer. *)
Example learn_two_step_agent :
  learn count_steps two_step_agent alternating_shuffle
  = Some (set_memory
            (set_networks two_step_agent
               (count_steps (fun _ => 0) (zero_actor, zero_critic)))
            (PPOMemory_init 2)).
Proof. reflexivity. Qed.

(** * Further properties of the code *)

(** ** The rollout buffer *)

Section Buffer.
Local Open Scope nat_scope.

Lemma store_transitions_fields (ts : list Transition) : forall m,
  states (store_transitions m ts) = states m ++ map t_state ts /\
  actions (store_transitions m ts) = actions m ++ map t_action ts /\
  probs (store_transitions m ts) = probs m ++ map t_prob ts /\
  vals (store_transitions m ts) = vals m ++ map t_val ts /\
  rewards (store_transitions m ts) = rewards m ++ map t_reward ts /\
  dones (store_transitions m ts) = dones m ++ map t_done ts /\
  batch_size (store_transitions m ts) = batch_size m.
Proof.
  induction ts as [|t ts IH]; intros m; simpl.
  - rewrite !app_nil_r. by repeat split.
  - destruct (IH (store_memory m (t_state t) (t_action t) (t_prob t) (t_val t)
                    (t_reward t) (t_done t)))
      as (H1 & H2 & H3 & H4 & H5 & H6 & H7).
    unfold store_transitions in *. simpl.
    rewrite H1, H2, H3, H4, H5, H6, H7. simpl.
    rewrite <- !app_assoc. by repeat split.
Qed.

Lemma lookup_app_map {A B} (f : A -> B) (l : list B) (ts : list A) i t :
  ts !! i = Some t -> (l ++ map f ts) !! (length l + i) = Some (f t).
Proof.
  intros Ht. rewrite lookup_app_r by lia.
  replace (length l + i - length l) with i by lia.
  change (map f ts) with (f <$> ts). rewrite list_lookup_fmap, Ht. reflexivity.
Qed.

Lemma arange_from_lookup_Some fuel s stop b k :
  1 <= b -> stop - s <= fuel -> s + k * b < stop ->
  arange_from fuel s stop b !! k = Some (s + k * b).
Proof.
  intros Hb Hf Hk.
  assert (Hlen : k < length (arange_from fuel s stop b)).
  { rewrite arange_from_length by lia.
    apply (Nat.div_le_lower_bound _ b (S k)); nia. }
  destruct (lookup_lt_is_Some_2 _ _ Hlen) as [i Hi].
  rewrite Hi. apply arange_from_lookup in Hi as [-> _]. reflexivity.
Qed.

End Buffer.

(** X1: after a rollout is stored on a well-formed buffer of length [n], the
    [i]-th transition of the rollout sits at index [n + i] of all six
    sequences, the entries below [n] are as they were, the buffer is still
    well formed and [generate_batches] hands these six sequences out. *)
Theorem store_transitions_lookup (m : PPOMemory) (ts : list Transition)
    (i : nat) (t : Transition) :
  mem_inv m -> ts !! i = Some t ->
  let m' := store_transitions m ts in
  let n := length (states m) in
  mem_inv m' /\
  length (states m') = (n + length ts)%nat /\
  states m' !! (n + i)%nat = Some (t_state t) /\
  actions m' !! (n + i)%nat = Some (t_action t) /\
  probs m' !! (n + i)%nat = Some (t_prob t) /\
  vals m' !! (n + i)%nat = Some (t_val t) /\
  rewards m' !! (n + i)%nat = Some (t_reward t) /\
  dones m' !! (n + i)%nat = Some (t_done t) /\
  (forall j, (j < n)%nat ->
     states m' !! j = states m !! j /\ actions m' !! j = actions m !! j /\
     probs m' !! j = probs m !! j /\ vals m' !! j = vals m !! j /\
     rewards m' !! j = rewards m !! j /\ dones m' !! j = dones m !! j) /\
  (forall indices bt, generate_batches m' indices = Some bt ->
     state_arr bt = states m' /\ action_arr bt = actions m' /\
     old_prob_arr bt = probs m' /\ vals_arr bt = vals m' /\
     reward_arr bt = rewards m' /\ dones_arr bt = dones m').
Proof.
  intros (Hp & Hv & Ha & Hr & Hd) Ht m' n. subst m' n.
  destruct (store_transitions_fields ts m) as (H1 & H2 & H3 & H4 & H5 & H6 & H7).
  rewrite H1, H2, H3, H4, H5, H6.
  split.
  { unfold mem_inv. rewrite H1, H2, H3, H4, H5, H6, !length_app, !length_map. lia. }
  split; [rewrite length_app, length_map; reflexivity|].
  split; [by apply lookup_app_map|].
  split; [rewrite <- Ha; by apply lookup_app_map|].
  split; [rewrite <- Hp; by apply lookup_app_map|].
  split; [rewrite <- Hv; by apply lookup_app_map|].
  split; [rewrite <- Hr; by apply lookup_app_map|].
  split; [rewrite <- Hd; by apply lookup_app_map|].
  split.
  - intros j Hj. repeat split; apply lookup_app_l; lia.
  - intros indices bt Hbt. unfold generate_batches in Hbt.
    destruct (arange _ _); simpl in Hbt; [|done]. injection Hbt as <-. simpl.
    by rewrite H1, H2, H3, H4, H5, H6.
Qed.

Lemma store_transitions_lookup_witness :
  let m := PPOMemory_init 2 in
  let ts := [mkTransition [1] [0.5] 0.1 0.2 1 false;
             mkTransition [2] [0.25] 0.3 0.4 3 true] in
  let t := mkTransition [2] [0.25] 0.3 0.4 3 true in
  let i := 1%nat in
  let m' := store_transitions m ts in
  let n := length (states m) in
  mem_inv m' /\
  length (states m') = (n + length ts)%nat /\
  states m' !! (n + i)%nat = Some (t_state t) /\
  actions m' !! (n + i)%nat = Some (t_action t) /\
  probs m' !! (n + i)%nat = Some (t_prob t) /\
  vals m' !! (n + i)%nat = Some (t_val t) /\
  rewards m' !! (n + i)%nat = Some (t_reward t) /\
  dones m' !! (n + i)%nat = Some (t_done t) /\
  (forall j, (j < n)%nat ->
     states m' !! j = states m !! j /\ actions m' !! j = actions m !! j /\
     probs m' !! j = probs m !! j /\ vals m' !! j = vals m !! j /\
     rewards m' !! j = rewards m !! j /\ dones m' !! j = dones m !! j) /\
  (forall indices bt, generate_batches m' indices = Some bt ->
     state_arr bt = states m' /\ action_arr bt = actions m' /\
     old_prob_arr bt = probs m' /\ vals_arr bt = vals m' /\
     reward_arr bt = rewards m' /\ dones_arr bt = dones m').
Proof.
  intros m ts t i.
  apply (store_transitions_lookup m ts i t).
  - by repeat split.
  - reflexivity.
Defined.

(** X2: with a batch size [b >= 1] and a shuffle as long as the buffer, the
    [k]-th batch, for every [k] with [k * b] below the buffer length, is the
    slice of the shuffle that starts at [k * b] and holds up to [b] indices;
    there is no batch beyond those. *)
Theorem generate_batches_kth (m : PPOMemory) (indices : list nat) (k : nat) :
  (1 <= batch_size m)%nat -> length indices = length (states m) ->
  exists bt,
    generate_batches m indices = Some bt /\
    ((k * batch_size m < length (states m))%nat ->
       batches bt !! k
       = Some (take (batch_size m) (drop (k * batch_size m) indices))) /\
    ((length (states m) <= k * batch_size m)%nat -> batches bt !! k = None).
Proof.
  intros Hb Hlen. unfold generate_batches, arange.
  destruct (Nat.eqb_spec (batch_size m) 0) as [H0|_]; [lia|]. simpl.
  eexists. split; [reflexivity|]. simpl. split.
  - intros Hk. change (map ?f ?l) with (f <$> l).
    rewrite list_lookup_fmap, arange_from_lookup_Some by lia. simpl.
    unfold slice. do 2 f_equal. lia.
  - intros Hk. apply lookup_ge_None_2.
    rewrite length_map, arange_from_length by lia.
    rewrite Nat.sub_0_r.
    apply Nat.lt_succ_r, Nat.Div0.div_lt_upper_bound. nia.
Qed.

Lemma generate_batches_kth_witness :
  exists bt,
    generate_batches
      (mkMemory (replicate 5 []) (replicate 5 0) (replicate 5 0) (replicate 5 [])
         (replicate 5 1) (replicate 5 false) 2) [3; 0; 4; 1; 2]%nat = Some bt /\
    ((2 * 2 < 5)%nat ->
       batches bt !! 2%nat = Some (take 2 (drop (2 * 2) [3; 0; 4; 1; 2]%nat))) /\
    ((5 <= 2 * 2)%nat -> batches bt !! 2%nat = None).
Proof.
  apply (generate_batches_kth
           (mkMemory (replicate 5 []) (replicate 5 0) (replicate 5 0) (replicate 5 [])
              (replicate 5 1) (replicate 5 false) 2) [3; 0; 4; 1; 2]%nat 2).
  - simpl. lia.
  - reflexivity.
Defined.

(** ** What one call of [learn] does to the agent *)

Section LearnEffects.

Context {Adam : Type}.
Variable backward_step :
  (ActorNetwork Adam * CriticNetwork Adam -> R) ->
  ActorNetwork Adam * CriticNetwork Adam -> ActorNetwork Adam * CriticNetwork Adam.

Implicit Types a : Agent Adam.

Lemma mem_inv_empty (m : PPOMemory) :
  mem_inv m -> states m = [] -> mem_empty m /\ clear_memory m = m.
Proof.
  destruct m as [s p v ac r d b]. unfold mem_inv, mem_empty. simpl.
  intros (Hp & Hv & Ha & Hr & Hd) ->. simpl in *.
  apply nil_length_inv in Hp, Hv, Ha, Hr, Hd. subst. by repeat split.
Qed.

Lemma learn_epoch_empty a indices :
  mem_inv (memory a) -> states (memory a) = [] ->
  (1 <= batch_size (memory a))%nat ->
  learn_epoch backward_step a indices = Some a.
Proof.
  intros Hinv Hs Hb. destruct (mem_inv_empty _ Hinv Hs) as ((_ & _ & _ & _ & Hr & _) & _).
  unfold learn_epoch, generate_batches, arange. rewrite Hs. simpl.
  destruct (Nat.eqb_spec (batch_size (memory a)) 0) as [H0|_]; [lia|]. simpl.
  unfold epoch_raw_advantage. simpl. rewrite Hr. reflexivity.
Qed.

Lemma learn_epochs_empty a shuffle k :
  mem_inv (memory a) -> states (memory a) = [] ->
  (1 <= batch_size (memory a))%nat ->
  learn_epochs backward_step a shuffle k = Some a.
Proof.
  intros Hinv Hs Hb. induction k as [|k IH]; [reflexivity|].
  rewrite learn_epochs_S, IH. simpl. by apply learn_epoch_empty.
Qed.

Lemma learn_empty a shuffle :
  mem_inv (memory a) -> states (memory a) = [] ->
  (1 <= batch_size (memory a))%nat ->
  learn backward_step a shuffle = Some a.
Proof.
  intros Hinv Hs Hb. unfold learn. rewrite learn_epochs_empty by done. simpl.
  destruct (mem_inv_empty _ Hinv Hs) as (_ & ->). by destruct a.
Qed.

(** X3: on an empty, well-formed buffer with a batch size of at least 1,
    [learn] completes without a single optimiser step and returns the agent
    as it was, whatever the shuffles and the number of epochs. *)
Theorem learn_empty_buffer a shuffle :
  mem_inv (memory a) -> states (memory a) = [] ->
  (1 <= batch_size (memory a))%nat ->
  learn backward_step a shuffle = Some a /\
  (forall k, learn_epochs backward_step a shuffle k = Some a).
Proof.
  intros Hinv Hs Hb. split; [by apply learn_empty|].
  intros k. by apply learn_epochs_empty.
Qed.

(** X4: a call of [learn] that follows a completed call of [learn], with
    nothing stored in between, changes nothing: the buffer is already empty
    and the networks are left alone. *)
Theorem learn_twice a shuffle shuffle' a' :
  learn backward_step a shuffle = Some a' ->
  (1 <= batch_size (memory a))%nat ->
  learn backward_step a' shuffle' = Some a'.
Proof.
  intros Hl Hb. apply learn_cleared in Hl as (_ & Hbs & nets & ->).
  apply learn_empty; simpl; [by repeat split|reflexivity|exact Hb].
Qed.

(** *** Counting the optimiser steps *)

Section Counting.

Variable count : ActorNetwork Adam * CriticNetwork Adam -> nat.
Hypothesis count_step :
  forall loss nets, count (backward_step loss nets) = S (count nets).

Lemma foldM_count {A B} (f : A -> B -> option A) (c : A -> nat) :
  (forall x y x', f x y = Some x' -> c x' = S (c x)) ->
  forall l x x', foldM f x l = Some x' -> c x' = (c x + length l)%nat.
Proof.
  intros Hf l. induction l as [|y l IH]; intros x x'; simpl.
  - intros [= <-]. lia.
  - destruct (f x y) as [x1|] eqn:Hx; simpl; [|done].
    intros H. apply IH in H. apply Hf in Hx. lia.
Qed.

Lemma learn_batch_count bt advantage a batch a' :
  learn_batch backward_step bt advantage a batch = Some a' ->
  count (actor a', critic a') = S (count (actor a, critic a)).
Proof.
  unfold learn_batch. intros H.
  destruct (gather (state_arr bt) batch); simpl in H; [|done].
  destruct (gather (old_prob_arr bt) batch); simpl in H; [|done].
  destruct (gather (action_arr bt) batch); simpl in H; [|done].
  destruct (gather advantage batch); simpl in H; [|done].
  injection H as <-. simpl. rewrite <- surjective_pairing. apply count_step.
Qed.

Lemma learn_epoch_count a indices a' :
  learn_epoch backward_step a indices = Some a' ->
  count (actor a', critic a')
  = (count (actor a, critic a)
     + (length (states (memory a)) + batch_size (memory a) - 1)
       / batch_size (memory a))%nat.
Proof.
  unfold learn_epoch, generate_batches, arange. intros H.
  destruct (Nat.eqb_spec (batch_size (memory a)) 0) as [H0|Hb]; [done|].
  simpl in H.
  destruct (epoch_raw_advantage a _) as [adv|]; simpl in H; [|done].
  apply (foldM_count _ (fun x => count (actor x, critic x))) in H.
  - rewrite H, length_map, arange_from_length by lia. do 2 f_equal. lia.
  - intros x batch x'. apply learn_batch_count.
Qed.

Lemma learn_epochs_count a shuffle k a' :
  learn_epochs backward_step a shuffle k = Some a' ->
  count (actor a', critic a')
  = (count (actor a, critic a)
     + k * ((length (states (memory a)) + batch_size (memory a) - 1)
            / batch_size (memory a)))%nat.
Proof.
  revert a'. induction k as [|k IH]; intros a'.
  - intros [= <-]. lia.
  - rewrite learn_epochs_S.
    destruct (learn_epochs backward_step a shuffle k) as [a_k|] eqn:Hk;
      simpl; [|done].
    intros He. apply learn_epoch_count in He. specialize (IH a_k eq_refl).
    apply learn_epochs_frame in Hk.
    assert (Hm : memory a_k = memory a) by (rewrite Hk; reflexivity).
    rewrite He, IH, Hm. lia.
Qed.

(** X5: a completed call of [learn] performs exactly
    [n_epochs * ceil(n / batch_size)] optimiser steps, where [n] is the
    number of stored transitions: any counter that every optimiser step
    increments by one ends that much higher. *)
Theorem learn_step_count a shuffle a' :
  learn backward_step a shuffle = Some a' ->
  count (actor a', critic a')
  = (count (actor a, critic a)
     + n_epochs a * ((length (states (memory a)) + batch_size (memory a) - 1)
                     / batch_size (memory a)))%nat.
Proof.
  unfold learn. intros H.
  destruct (learn_epochs backward_step a shuffle (n_epochs a)) as [a1|] eqn:He;
    simpl in H; [|done].
  injection H as <-. simpl.
  exact (learn_epochs_count a shuffle (n_epochs a) a1 He).
Qed.

End Counting.

(** X6: a completed call of [learn] changes the two networks and the buffer
    and nothing else: the discount, the clip width, the number of epochs, the
    GAE parameter, the entropy coefficient, [epsilon] and the batch size are
    those of the agent before the call. *)
Theorem learn_keeps_hyperparameters a shuffle a' :
  learn backward_step a shuffle = Some a' ->
  gamma a' = gamma a /\ policy_clip a' = policy_clip a /\
  n_epochs a' = n_epochs a /\ gae_lambda a' = gae_lambda a /\
  entropy_coef a' = entropy_coef a /\ epsilon a' = epsilon a /\
  batch_size (memory a') = batch_size (memory a) /\
  a' = set_memory (set_networks a (actor a', critic a')) (PPOMemory_init (batch_size (memory a))).
Proof.
  intros Hl. apply learn_cleared in Hl as (_ & _ & [act crt] & ->). simpl.
  by repeat split.
Qed.

End LearnEffects.

Lemma learn_empty_buffer_witness :
  learn count_steps fresh_agent alternating_shuffle = Some fresh_agent /\
  (forall k, learn_epochs count_steps fresh_agent alternating_shuffle k
             = Some fresh_agent).
Proof.
  apply (learn_empty_buffer count_steps fresh_agent alternating_shuffle).
  - by repeat split.
  - reflexivity.
  - simpl. lia.
Defined.

Lemma learn_twice_witness :
  learn count_steps
    (set_memory (set_networks two_step_agent
                   (count_steps (fun _ => 0) (zero_actor, zero_critic)))
                (PPOMemory_init 2))
    (fun _ => [])
  = Some (set_memory (set_networks two_step_agent
                        (count_steps (fun _ => 0) (zero_actor, zero_critic)))
                     (PPOMemory_init 2)).
Proof.
  apply (learn_twice count_steps two_step_agent alternating_shuffle (fun _ => [])).
  - reflexivity.
  - simpl. lia.
Defined.

Lemma learn_step_count_witness :
  let a' := set_memory (set_networks two_step_agent
                          (count_steps (fun _ => 0) (zero_actor, zero_critic)))
                       (PPOMemory_init 2) in
  actor_optimiser (actor a', critic a').1
  = (actor_optimiser (actor two_step_agent, critic two_step_agent).1
     + n_epochs two_step_agent
       * ((length (states (memory two_step_agent))
           + batch_size (memory two_step_agent) - 1)
          / batch_size (memory two_step_agent)))%nat.
Proof.
  intros a'.
  apply (learn_step_count count_steps (fun nets => actor_optimiser nets.1)
           (fun loss nets => eq_refl) two_step_agent alternating_shuffle a').
  reflexivity.
Defined.

Lemma learn_keeps_hyperparameters_witness :
  let a := two_step_agent in
  let a' := set_memory (set_networks two_step_agent
                          (count_steps (fun _ => 0) (zero_actor, zero_critic)))
                       (PPOMemory_init 2) in
  gamma a' = gamma a /\ policy_clip a' = policy_clip a /\
  n_epochs a' = n_epochs a /\ gae_lambda a' = gae_lambda a /\
  entropy_coef a' = entropy_coef a /\ epsilon a' = epsilon a /\
  batch_size (memory a') = batch_size (memory a) /\
  a' = set_memory (set_networks a (actor a', critic a'))
         (PPOMemory_init (batch_size (memory a))).
Proof.
  intros a a'.
  apply (learn_keeps_hyperparameters count_steps a alternating_shuffle a').
  reflexivity.
Defined.

(** ** More on the advantage estimate *)

Section GAEFacts.

Variables (gamma lambda : R).

(** The array [raw_advantage] returns, entry by entry. *)
Lemma raw_advantage_closed (reward value : list R) (done : list bool) :
  length value = length reward -> length done = length reward ->
  raw_advantage gamma lambda reward value done
  = Some (map (discounted_td_sum gamma lambda reward value done)
            (seq 0 (length reward))).
Proof.
  intros Hv Hd.
  destruct (gae_fold gamma lambda reward value done (length reward - 1)
              (replicate (length reward) 0) 0)
    as (adv & last & Hf & Hl & Hlo & Hhi); auto.
  { apply length_replicate. }
  { symmetry. apply closed_last. lia. }
  unfold raw_advantage, gae_loop. rewrite Hf. simpl. f_equal.
  apply list_eq. intros j. change (map ?f ?l) with (f <$> l).
  rewrite list_lookup_fmap.
  destruct (decide (j < length reward)%nat) as [Hj|Hj].
  - rewrite lookup_seq_lt by lia. simpl.
    destruct (decide (j < length reward - 1)%nat) as [Hlt|Hge].
    + by apply Hlo.
    + rewrite Hhi by lia. rewrite lookup_replicate_2 by lia.
      f_equal. symmetry. apply closed_last. lia.
  - rewrite lookup_seq_ge by lia. simpl. apply lookup_ge_None_2. lia.
Qed.

Lemma td_residual_ext (reward reward' value : list R) (done done' : list bool) k :
  nth k reward 0 = nth k reward' 0 -> nth k done false = nth k done' false ->
  td_residual gamma reward value done k = td_residual gamma reward' value done' k.
Proof. unfold td_residual. intros -> ->. reflexivity. Qed.

Lemma discounted_td_sum_ext (reward reward' value : list R) (done done' : list bool) t :
  length reward' = length reward ->
  (forall k, (t <= k < length reward - 1)%nat ->
     td_residual gamma reward value done k = td_residual gamma reward' value done' k) ->
  discounted_td_sum gamma lambda reward value done t
  = discounted_td_sum gamma lambda reward' value done' t.
Proof.
  intros Hl Hk. unfold discounted_td_sum. rewrite Hl. f_equal.
  apply map_ext_in. intros k Hin. apply in_seq in Hin.
  rewrite Hk by lia. reflexivity.
Qed.

Lemma nth_insert_R (l : list R) (k j : nat) (x : R) :
  (k < length l)%nat ->
  nth j (<[k := x]> l) 0 = if decide (j = k) then x else nth j l 0.
Proof.
  intros Hk. rewrite !nth_lookup. destruct (decide (j = k)) as [->|Hne].
  - rewrite list_lookup_insert_eq by lia. reflexivity.
  - rewrite list_lookup_insert_ne by done. reflexivity.
Qed.

End GAEFacts.

(** X7: the reward and the done flag of the last stored transition never
    reach the advantage array: two buffers that differ only there have the
    same raw advantages. *)
Theorem raw_advantage_ignores_last (gamma lambda : R) (reward value : list R)
    (done : list bool) (r r' : R) (d d' : bool) :
  length value = S (length reward) -> length done = length reward ->
  raw_advantage gamma lambda (reward ++ [r]) value (done ++ [d])
  = raw_advantage gamma lambda (reward ++ [r']) value (done ++ [d']) /\
  is_Some (raw_advantage gamma lambda (reward ++ [r]) value (done ++ [d])).
Proof.
  intros Hv Hd.
  rewrite !raw_advantage_closed by (rewrite !length_app; simpl; lia).
  split; [|by eexists]. f_equal. rewrite !length_app. simpl.
  apply map_ext. intros t. apply discounted_td_sum_ext.
  - rewrite !length_app. reflexivity.
  - intros k Hk. rewrite length_app in Hk. simpl in Hk.
    apply td_residual_ext; rewrite !app_nth1 by lia; reflexivity.
Qed.

Lemma raw_advantage_ignores_last_witness :
  raw_advantage 0.99 0.95 ([1; 1] ++ [5]) [0; 0; 0] ([false; false] ++ [true])
  = raw_advantage 0.99 0.95 ([1; 1] ++ [-7]) [0; 0; 0] ([false; false] ++ [false]) /\
  is_Some (raw_advantage 0.99 0.95 ([1; 1] ++ [5]) [0; 0; 0] ([false; false] ++ [true])).
Proof.
  apply (raw_advantage_ignores_last 0.99 0.95 [1; 1] [0; 0; 0] [false; false]
           5 (-7) true false).
  - reflexivity.
  - reflexivity.
Defined.

(** X8: the loop never resets [last_adv] at a terminal step.  Raising the
    reward of step [k] (any [k] but the last) by [c] raises the raw advantage
    of every earlier step [t] by [(gamma * lambda) ^ (k - t) * c], whatever
    the done flags between [t] and [k], and leaves the later steps alone. *)
Theorem raw_advantage_reward_sensitivity (gamma lambda : R) (reward value : list R)
    (done : list bool) (k : nat) (c : R) :
  length value = length reward -> length done = length reward ->
  (k < length reward - 1)%nat ->
  exists adv adv',
    raw_advantage gamma lambda reward value done = Some adv /\
    raw_advantage gamma lambda (<[k := nth k reward 0 + c]> reward) value done
      = Some adv' /\
    (forall t, (t <= k)%nat ->
       nth t adv' 0 = nth t adv 0 + (gamma * lambda) ^ (k - t) * c) /\
    (forall t, (k < t)%nat -> nth t adv' 0 = nth t adv 0).
Proof.
  intros Hv Hd Hk.
  set (reward' := <[k := nth k reward 0 + c]> reward).
  assert (Hl : length reward' = length reward) by apply length_insert.
  assert (Hres : forall j,
    td_residual gamma reward' value done j
    = td_residual gamma reward value done j + (if decide (j = k) then c else 0)).
  { intros j. unfold td_residual, reward'. rewrite nth_insert_R by lia.
    destruct (decide (j = k)) as [->|_]; lra. }
  assert (Hhi : forall t, (k < t)%nat ->
    discounted_td_sum gamma lambda reward' value done t
    = discounted_td_sum gamma lambda reward value done t).
  { intros t Ht. apply discounted_td_sum_ext; [by rewrite Hl|].
    intros j Hj. rewrite Hres. destruct (decide (j = k)); [lia|lra]. }
  assert (Hlo : forall d t, (t + d = k)%nat ->
    discounted_td_sum gamma lambda reward' value done t
    = discounted_td_sum gamma lambda reward value done t
      + (gamma * lambda) ^ d * c).
  { induction d as [|d IH]; intros t Ht.
    - assert (t = k) by lia. subst t.
      rewrite (closed_unfold gamma lambda reward' value done k) by lia.
      rewrite (closed_unfold gamma lambda reward value done k) by lia.
      rewrite Hres, Hhi by lia. destruct (decide (k = k)); [|done]. simpl. lra.
    - rewrite (closed_unfold gamma lambda reward' value done t) by lia.
      rewrite (closed_unfold gamma lambda reward value done t) by lia.
      rewrite Hres, (IH (S t)) by lia.
      destruct (decide (t = k)); [lia|]. simpl. lra. }
  exists (map (discounted_td_sum gamma lambda reward value done) (seq 0 (length reward))),
         (map (discounted_td_sum gamma lambda reward' value done) (seq 0 (length reward'))).
  split; [by apply raw_advantage_closed|].
  split; [apply raw_advantage_closed; lia|].
  assert (Hnth : forall (f : nat -> R) n t,
    nth t (map f (seq 0 n)) 0 = if decide (t < n)%nat then f t else 0).
  { intros f n t. rewrite nth_lookup. change (map f (seq 0 n)) with (f <$> seq 0 n).
    rewrite list_lookup_fmap. destruct (decide (t < n)%nat).
    - rewrite lookup_seq_lt by lia. reflexivity.
    - rewrite lookup_seq_ge by lia. reflexivity. }
  rewrite Hl. split.
  - intros t Ht. rewrite !Hnth. destruct (decide (t < length reward)%nat); [|lia].
    apply Hlo. lia.
  - intros t Ht. rewrite !Hnth. destruct (decide (t < length reward)%nat); [|lra].
    by apply Hhi.
Qed.

Lemma raw_advantage_reward_sensitivity_witness :
  exists adv adv',
    raw_advantage 0.99 0.95 [1; 1; 1; 1] [0; 0; 0; 0] [true; true; true; true] = Some adv /\
    raw_advantage 0.99 0.95
      (<[2%nat := nth 2 [1; 1; 1; 1] 0 + 10]> [1; 1; 1; 1]) [0; 0; 0; 0]
      [true; true; true; true] = Some adv' /\
    (forall t, (t <= 2)%nat ->
       nth t adv' 0 = nth t adv 0 + (0.99 * 0.95) ^ (2 - t) * 10) /\
    (forall t, (2 < t)%nat -> nth t adv' 0 = nth t adv 0).
Proof.
  apply (raw_advantage_reward_sensitivity 0.99 0.95 [1; 1; 1; 1] [0; 0; 0; 0]
           [true; true; true; true] 2 10).
  - reflexivity.
  - reflexivity.
  - simpl. lia.
Defined.

(** X9: with [gae_lambda = 0] the raw advantage of every step but the last
    is the one-step TD residual of that step. *)
Theorem raw_advantage_lambda_zero (gamma : R) (reward value : list R)
    (done : list bool) :
  length value = length reward -> length done = length reward ->
  exists adv,
    raw_advantage gamma 0 reward value done = Some adv /\
    length adv = length reward /\
    forall t, (t < length reward - 1)%nat ->
      adv !! t = Some (td_residual gamma reward value done t).
Proof.
  intros Hv Hd. eexists. split; [by apply raw_advantage_closed|].
  split; [by rewrite length_map, length_seq|].
  intros t Ht. change (map ?f ?l) with (f <$> l).
  rewrite list_lookup_fmap, lookup_seq_lt by lia. simpl. f_equal.
  rewrite (closed_unfold gamma 0 reward value done t Ht). lra.
Qed.

Lemma raw_advantage_lambda_zero_witness :
  exists adv,
    raw_advantage 0.99 0 [1; 2; 3] [0.5; 0.25; 0] [false; true; false] = Some adv /\
    length adv = length [1; 2; 3] /\
    forall t, (t < length [1; 2; 3] - 1)%nat ->
      adv !! t = Some (td_residual 0.99 [1; 2; 3] [0.5; 0.25; 0] [false; true; false] t).
Proof.
  apply (raw_advantage_lambda_zero 0.99 [1; 2; 3] [0.5; 0.25; 0] [false; true; false]).
  - reflexivity.
  - reflexivity.
Defined.

(** ** More on the normalisation of the advantages *)

Section NormalisationFacts.

Lemma Rsum_const (c : R) (l : list R) :
  Forall (fun x => x = c) l -> Rsum l = INR (length l) * c.
Proof.
  induction 1 as [|x l -> _ IH].
  - simpl. lra.
  - change (length (c :: l)) with (S (length l)). rewrite S_INR. simpl.
    rewrite IH. lra.
Qed.

Lemma Rmean_const (c : R) (l : list R) :
  l <> [] -> Forall (fun x => x = c) l -> Rmean l = c.
Proof.
  intros Hl Hc. unfold Rmean. rewrite (Rsum_const c l Hc).
  pose proof (INR_length_pos l Hl). field. lra.
Qed.

Lemma normalize_denominator_pos (l : list R) : 0 < Rstd l + 1e-8.
Proof. pose proof (Rstd_nonneg l). lra. Qed.

End NormalisationFacts.

(** X10: an advantage array whose entries are all equal (zero variance) is
    normalised to an array of zeros of the same length: the [1e-8] keeps the
    division defined.  A buffer with a single transition is such a case: its
    raw advantage array is [0] and so is the normalised one. *)
Theorem normalize_advantage_constant (c : R) (advantage : list R) :
  Forall (fun x => x = c) advantage ->
  normalize_advantage advantage = map (fun _ => 0) advantage /\
  (forall gamma lambda r v d,
     raw_advantage gamma lambda [r] [v] [d] = Some [0] /\
     normalize_advantage [0] = [0]).
Proof.
  intros Hc.
  assert (Hgen : forall l, Forall (fun x => x = c) l ->
            normalize_advantage l = map (fun _ => 0) l).
  { intros l Hl. destruct l as [|x l]; [reflexivity|].
    unfold normalize_advantage.
    rewrite (Rmean_const c (x :: l)) by done.
    pose proof (normalize_denominator_pos (x :: l)) as Hpos.
    apply map_ext_in. intros y Hy.
    apply (proj1 (List.Forall_forall _ _) Hl) in Hy. subst y.
    unfold Rdiv. rewrite Rminus_diag. apply Rmult_0_l. }
  split; [by apply Hgen|].
  intros gamma lambda r v d. split; [reflexivity|].
  unfold normalize_advantage.
  rewrite (Rmean_const 0 [0]) by (done || by repeat constructor).
  simpl. f_equal. unfold Rdiv. rewrite Rminus_diag. apply Rmult_0_l.
Qed.

Lemma normalize_advantage_constant_witness :
  normalize_advantage [3; 3; 3] = map (fun _ => 0) [3; 3; 3] /\
  (forall gamma lambda r v d,
     raw_advantage gamma lambda [r] [v] [d] = Some [0] /\
     normalize_advantage [0] = [0]).
Proof.
  apply (normalize_advantage_constant 3 [3; 3; 3]).
  repeat constructor.
Defined.

(** X11: normalisation keeps the order of the advantages and their side of
    the mean: a larger raw advantage is normalised to a larger value, and a
    normalised advantage is positive exactly when the raw one is above the
    mean of the array. *)
Theorem normalize_advantage_monotone (advantage : list R) (i j : nat) (x y : R) :
  advantage !! i = Some x -> advantage !! j = Some y ->
  exists x' y',
    normalize_advantage advantage !! i = Some x' /\
    normalize_advantage advantage !! j = Some y' /\
    (x <= y -> x' <= y') /\ (x < y -> x' < y') /\
    (0 < x' <-> Rmean advantage < x) /\ (x' = 0 <-> x = Rmean advantage).
Proof.
  intros Hi Hj. unfold normalize_advantage.
  change (map ?f ?l) with (f <$> l). rewrite !list_lookup_fmap, Hi, Hj. simpl.
  pose proof (normalize_denominator_pos advantage) as Hpos.
  set (s := Rstd advantage + 1e-8) in *. set (m := Rmean advantage).
  assert (Hinv : 0 < / s) by (by apply Rinv_0_lt_compat).
  do 2 eexists. split; [reflexivity|]. split; [reflexivity|].
  unfold Rdiv. repeat split.
  - intros H. apply Rmult_le_compat_r; lra.
  - intros H. apply Rmult_lt_compat_r; lra.
  - intros H. apply (Rmult_lt_reg_r (/ s)); [done|]. lra.
  - intros H. apply Rmult_lt_0_compat; lra.
  - intros H. apply Rmult_integral in H as [H|H]; lra.
  - intros ->. rewrite Rminus_diag. apply Rmult_0_l.
Qed.

Lemma normalize_advantage_monotone_witness :
  exists x' y',
    normalize_advantage [1; 3; 2] !! 0%nat = Some x' /\
    normalize_advantage [1; 3; 2] !! 1%nat = Some y' /\
    (1 <= 3 -> x' <= y') /\ (1 < 3 -> x' < y') /\
    (0 < x' <-> Rmean [1; 3; 2] < 1) /\ (x' = 0 <-> 1 = Rmean [1; 3; 2]).
Proof.
  apply (normalize_advantage_monotone [1; 3; 2] 0 1 1 3).
  - reflexivity.
  - reflexivity.
Defined.

(** ** The policy distribution at sampling time and at update time *)

Section PolicyFacts.

Context {Adam : Type}.
Implicit Types net : ActorNetwork Adam.

Lemma clamp_floors_agree (x : R) : Rmax x 1e-4 = Rmax x 1e-6 <-> 1e-4 <= x.
Proof.
  unfold Rmax. destruct (Rle_dec x 1e-4), (Rle_dec x 1e-6); split; intros; lra.
Qed.

Lemma clamped_std_agree (l : list R) :
  map (fun x => Rmax x 1e-4) (map exp l) = map (fun s => Rmax s 1e-6) (map exp l)
  <-> Forall (fun ls => 1e-4 <= exp ls) l.
Proof.
  induction l as [|x l IH]; simpl.
  - split; [constructor|reflexivity].
  - split.
    + intros [= Hx Hl]. constructor; [by apply clamp_floors_agree|by apply IH].
    + intros H. inversion H as [|? ? Hx Hl]; subst.
      f_equal; [by apply clamp_floors_agree|by apply IH].
Qed.

Lemma batch_dist_sample_normal net (state : State) (sample : Normal -> list R) :
  Forall (fun ls => 1e-4 <= exp ls) (log_std net) ->
  batch_dist net [state] = [(sample_normal net state sample).2].
Proof.
  intros H. unfold batch_dist, sample_normal, actor_forward. simpl.
  do 2 f_equal. by apply clamped_std_agree.
Qed.

Lemma Linear_forward_length (l : Linear) (x y : list R) :
  length (Linear_forward l x) = length (Linear_forward l y).
Proof. unfold Linear_forward. rewrite !length_zip_with. reflexivity. Qed.

Lemma zip_with_ignore_fst {A B C} (g : B -> C) (l1 l2 : list A) (k : list B) :
  length l1 = length l2 ->
  zip_with (fun _ y => g y) l1 k = zip_with (fun _ y => g y) l2 k.
Proof.
  revert l2 k. induction l1 as [|x l1 IH]; intros [|y l2] [|z k] Hl; simpl in *;
    try done. f_equal. apply IH. lia.
Qed.

Lemma entropy_state_independent net (s s' : State) :
  map entropy (batch_dist net [s]) = map entropy (batch_dist net [s']).
Proof.
  unfold batch_dist, actor_forward, entropy. simpl. f_equal.
  apply zip_with_ignore_fst, Linear_forward_length.
Qed.

Lemma Rsum_app (l k : list R) : Rsum (l ++ k) = Rsum l + Rsum k.
Proof. induction l as [|x l IH]; simpl; [lra|]. rewrite IH. lra. Qed.

Lemma Rmean_concat_replicate (n : nat) (l : list R) :
  (1 <= n)%nat -> Rmean (concat (replicate n l)) = Rmean l.
Proof.
  intros Hn. destruct l as [|x l].
  { replace (concat (replicate n [])) with (@nil R); [reflexivity|].
    clear Hn. induction n; simpl; done. }
  assert (Hs : Rsum (concat (replicate n (x :: l))) = INR n * Rsum (x :: l)).
  { clear Hn. induction n as [|n IH].
    - simpl. lra.
    - rewrite S_INR. change (replicate (S n) (x :: l))
        with ((x :: l) :: replicate n (x :: l)).
      change (concat ((x :: l) :: replicate n (x :: l)))
        with ((x :: l) ++ concat (replicate n (x :: l))).
      rewrite Rsum_app, IH. lra. }
  assert (Hl : length (concat (replicate n (x :: l))) = (n * length (x :: l))%nat).
  { clear Hn Hs. induction n as [|n IH]; [reflexivity|].
    change (replicate (S n) (x :: l)) with ((x :: l) :: replicate n (x :: l)).
    change (concat ((x :: l) :: replicate n (x :: l)))
      with ((x :: l) ++ concat (replicate n (x :: l))).
    rewrite length_app, IH. lia. }
  unfold Rmean. rewrite Hs, Hl, mult_INR.
  assert (0 < INR n) by (apply lt_0_INR; lia).
  assert (0 < INR (length (x :: l))) by (apply lt_0_INR; simpl; lia).
  field. lra.
Qed.

End PolicyFacts.

(** X13: the distribution [learn] builds for a state (std clamped at 1e-4)
    is the one [sample_normal] built for it (std clamped at 1e-6) exactly
    when every [exp(log_std)] is at least 1e-4. *)
Theorem sampling_and_update_distributions {Adam} (net : ActorNetwork Adam)
    (state : State) (sample : Normal -> list R) :
  batch_dist net [state] = [(sample_normal net state sample).2]
  <-> Forall (fun ls => 1e-4 <= exp ls) (log_std net).
Proof.
  split; [|by apply batch_dist_sample_normal].
  unfold batch_dist, sample_normal, actor_forward. simpl.
  intros [= H]. by apply clamped_std_agree.
Qed.

(** X14: when every [exp(log_std)] is at least 1e-4 and the actor has not
    changed since the rollout, the log-probabilities [learn] recomputes for
    the stored states and actions are the stored ones, so every entry of
    [prob_ratio] is 1. *)
Theorem prob_ratio_one_before_update {Adam} (net : ActorNetwork Adam)
    (sts : list State) (sampler : State -> Normal -> list R) :
  Forall (fun ls => 1e-4 <= exp ls) (log_std net) ->
  let stored := map (fun s => sample_normal net s (sampler s)) sts in
  let acts := map (fun o => o.1.1) stored in
  let old_probs := map (fun o => o.1.2) stored in
  let new_probs :=
    zip_with (fun di act => Rsum (log_prob di act)) (batch_dist net sts) acts in
  new_probs = old_probs /\
  zip_with (fun n o => exp (n - o)) new_probs old_probs = map (fun _ => 1) sts.
Proof.
  intros Hstd stored acts old_probs new_probs.
  subst stored acts old_probs new_probs.
  assert (Hnew : zip_with (fun di act => Rsum (log_prob di act)) (batch_dist net sts)
                   (map (fun o => o.1.1)
                      (map (fun s => sample_normal net s (sampler s)) sts))
                 = map (fun o => o.1.2)
                     (map (fun s => sample_normal net s (sampler s)) sts)).
  { induction sts as [|s sts IH]; [reflexivity|].
    change (batch_dist net (s :: sts)) with (batch_dist net [s] ++ batch_dist net sts).
    rewrite (batch_dist_sample_normal net s (sampler s) Hstd). simpl.
    rewrite IH. reflexivity. }
  split; [exact Hnew|]. rewrite Hnew.
  induction sts as [|s sts IH]; [reflexivity|]. simpl. f_equal.
  - rewrite Rminus_diag. apply exp_0.
  - apply IH.
    change (batch_dist net (s :: sts)) with (batch_dist net [s] ++ batch_dist net sts) in Hnew.
    simpl in Hnew. by injection Hnew.
Qed.

Lemma prob_ratio_one_before_update_witness :
  let net := zero_actor in
  let sts := [[0]; [1]] in
  let sampler := fun (_ : State) (_ : Normal) => [3] in
  let stored := map (fun s => sample_normal net s (sampler s)) sts in
  let acts := map (fun o => o.1.1) stored in
  let old_probs := map (fun o => o.1.2) stored in
  let new_probs :=
    zip_with (fun di act => Rsum (log_prob di act)) (batch_dist net sts) acts in
  new_probs = old_probs /\
  zip_with (fun n o => exp (n - o)) new_probs old_probs = map (fun _ => 1) sts.
Proof.
  intros net sts sampler.
  apply (prob_ratio_one_before_update net sts sampler).
  repeat constructor. simpl. rewrite exp_0. lra.
Defined.

(** X15: the entropy term of the actor loss does not depend on the states of
    the batch: for a non-empty batch, [dist.entropy().mean()] is the mean
    entropy of the distribution of any single state. *)
Theorem entropy_loss_state_independent {Adam} (net : ActorNetwork Adam)
    (sts : list State) (s0 : State) :
  sts <> [] ->
  map entropy (batch_dist net sts)
  = replicate (length sts) (concat (map entropy (batch_dist net [s0]))) /\
  Rmean (concat (map entropy (batch_dist net sts)))
  = Rmean (concat (map entropy (batch_dist net [s0]))).
Proof.
  intros Hne.
  assert (Hrep : map entropy (batch_dist net sts)
                 = replicate (length sts) (concat (map entropy (batch_dist net [s0])))).
  { clear Hne. induction sts as [|s sts IH]; [reflexivity|].
    change (batch_dist net (s :: sts)) with (batch_dist net [s] ++ batch_dist net sts).
    rewrite map_app, IH, (entropy_state_independent net s s0). simpl.
    rewrite app_nil_r. reflexivity. }
  split; [exact Hrep|]. rewrite Hrep. apply Rmean_concat_replicate.
  destruct sts; [done|simpl; lia].
Qed.

Lemma entropy_loss_state_independent_witness :
  map entropy (batch_dist zero_actor [[0]; [1]; [2]])
  = replicate (length [[0]; [1]; [2]])
      (concat (map entropy (batch_dist zero_actor [[5]]))) /\
  Rmean (concat (map entropy (batch_dist zero_actor [[0]; [1]; [2]])))
  = Rmean (concat (map entropy (batch_dist zero_actor [[5]]))).
Proof.
  apply (entropy_loss_state_independent zero_actor [[0]; [1]; [2]] [5]).
  discriminate.
Defined.

(** ** The clipped surrogate and the value of the losses *)

Section LossFacts.

Context {Adam : Type}.

Lemma zip_with_map_map {A B C D} (h : B -> C -> D) (f : A -> B) (g : A -> C)
    (l : list A) :
  zip_with h (map f l) (map g l) = map (fun x => h (f x) (g x)) l.
Proof. induction l as [|x l IH]; simpl; [reflexivity|]. by rewrite IH. Qed.

(** [actor_loss] in terms of [surrogate]. *)
Lemma actor_loss_surrogate (a : Agent Adam) (d : BatchData) (net : ActorNetwork Adam) :
  actor_loss a d net
  = - Rmean (concat (map (fun r => map (fun adv => surrogate (policy_clip a) adv r)
                                     (b_advantage d))
                       (zip_with (fun n o => exp (n - o))
                          (zip_with (fun di act => Rsum (log_prob di act))
                             (batch_dist net (b_states d)) (b_actions d))
                          (b_old_probs d))))
    - entropy_coef a * Rmean (concat (map entropy (batch_dist net (b_states d)))).
Proof.
  unfold actor_loss. rewrite zip_with_map_map. do 4 f_equal.
  apply map_ext. intros r. rewrite zip_with_map_map. reflexivity.
Qed.

Lemma surrogate_at_one (clip adv : R) : 0 <= clip -> surrogate clip adv 1 = adv.
Proof.
  intros Hc. unfold surrogate.
  assert (H1 : clamp 1 (1 - clip) (1 + clip) = 1).
  { unfold clamp. rewrite Rmax_left, Rmin_left by lra. reflexivity. }
  rewrite H1. unfold Rmin. destruct (Rle_dec _ _); lra.
Qed.

Lemma clamp_cases (x lo hi : R) :
  lo <= hi ->
  (x <= lo /\ clamp x lo hi = lo) \/
  (lo <= x <= hi /\ clamp x lo hi = x) \/
  (hi <= x /\ clamp x lo hi = hi).
Proof.
  intros Hle. unfold clamp.
  destruct (Rle_dec x lo) as [H1|H1].
  - left. split; [done|]. rewrite Rmax_right, Rmin_left by lra. reflexivity.
  - destruct (Rle_dec x hi) as [H2|H2].
    + right. left. split; [lra|]. rewrite Rmax_left, Rmin_left by lra. reflexivity.
    + right. right. split; [lra|]. rewrite Rmax_left, Rmin_right by lra. reflexivity.
Qed.

Lemma Rsum_permutation (l k : list R) : l ≡ₚ k -> Rsum l = Rsum k.
Proof.
  induction 1 as [|x l k _ IH|x y l|l k m _ IH1 _ IH2]; simpl; lra.
Qed.

Lemma gather_seq {A} (l : list A) : gather l (seq 0 (length l)) = Some l.
Proof.
  unfold gather. apply mapM_Some_2, Forall2_same_length_lookup_2.
  - by rewrite length_seq.
  - intros i j x Hj Hx. apply lookup_seq in Hj as [-> _]. exact Hx.
Qed.

Lemma gather_permutation {A} (l : list A) (idx idx' : list nat) :
  idx ≡ₚ idx' -> forall k, gather l idx = Some k ->
  exists k', gather l idx' = Some k' /\ k ≡ₚ k'.
Proof.
  unfold gather.
  induction 1 as [|i idx idx' _ IH|i j idx|idx1 idx2 idx3 _ IH1 _ IH2]; intros k Hk.
  - exists k. by split.
  - simpl in *. destruct (l !! i) as [x|]; simpl in *; [|done].
    destruct (mapM _ idx) as [k0|]; simpl in *; [|done].
    injection Hk as <-. destruct (IH k0 eq_refl) as (k' & -> & Hp).
    simpl. eexists. split; [reflexivity|]. by constructor.
  - simpl in *. destruct (l !! j) as [y|]; simpl in *; [|done].
    destruct (l !! i) as [x|]; simpl in *; [|done].
    destruct (mapM _ idx) as [k0|]; simpl in *; [|done].
    injection Hk as <-. eexists. split; [reflexivity|]. apply perm_swap.
  - destruct (IH1 k Hk) as (k1 & H1 & Hp1).
    destruct (IH2 k1 H1) as (k2 & H2 & Hp2).
    exists k2. split; [exact H2|]. by etrans.
Qed.

Lemma Rmean_permutation (l k : list R) : l ≡ₚ k -> Rmean l = Rmean k.
Proof.
  intros Hp. unfold Rmean.
  by rewrite (Rsum_permutation l k Hp), (Permutation_length Hp).
Qed.

End LossFacts.

(** X16: with a clip width [policy_clip >= 0], each entry of the policy term
    of [actor_loss] is [adv * min(ratio, 1 + clip)] for a non-negative
    advantage and [adv * max(ratio, 1 - clip)] for a non-positive one; it
    never exceeds the unclipped [adv * ratio] and equals it while the ratio
    is within [1 - clip, 1 + clip]. *)
Theorem clipped_surrogate {Adam} (a : Agent Adam) (d : BatchData)
    (net : ActorNetwork Adam) :
  0 <= policy_clip a ->
  actor_loss a d net
  = - Rmean (concat (map (fun r => map (fun adv => surrogate (policy_clip a) adv r)
                                     (b_advantage d))
                       (zip_with (fun n o => exp (n - o))
                          (zip_with (fun di act => Rsum (log_prob di act))
                             (batch_dist net (b_states d)) (b_actions d))
                          (b_old_probs d))))
    - entropy_coef a * Rmean (concat (map entropy (batch_dist net (b_states d)))) /\
  forall adv ratio,
    (0 <= adv ->
       surrogate (policy_clip a) adv ratio = adv * Rmin ratio (1 + policy_clip a)) /\
    (adv <= 0 ->
       surrogate (policy_clip a) adv ratio = adv * Rmax ratio (1 - policy_clip a)) /\
    surrogate (policy_clip a) adv ratio <= adv * ratio /\
    (1 - policy_clip a <= ratio <= 1 + policy_clip a ->
       surrogate (policy_clip a) adv ratio = adv * ratio).
Proof.
  intros Hc. split; [apply actor_loss_surrogate|].
  intros adv ratio. unfold surrogate.
  destruct (clamp_cases ratio (1 - policy_clip a) (1 + policy_clip a))
    as [[Hr ->]|[[Hr ->]|[Hr ->]]]; [lra|..];
    unfold Rmin, Rmax; repeat split; intros;
    repeat destruct (Rle_dec _ _);
    first [ nra
          | replace ratio with (1 - policy_clip a) by lra; ring
          | replace ratio with (1 + policy_clip a) by lra; ring ].
Qed.

Lemma clipped_surrogate_witness :
  let a := two_step_agent in
  let d := mkBatchData [[0]; [0]] [0; 0] [[0]; [0]] [-1; 1] in
  let net := zero_actor in
  actor_loss a d net
  = - Rmean (concat (map (fun r => map (fun adv => surrogate (policy_clip a) adv r)
                                     (b_advantage d))
                       (zip_with (fun n o => exp (n - o))
                          (zip_with (fun di act => Rsum (log_prob di act))
                             (batch_dist net (b_states d)) (b_actions d))
                          (b_old_probs d))))
    - entropy_coef a * Rmean (concat (map entropy (batch_dist net (b_states d)))) /\
  forall adv ratio,
    (0 <= adv ->
       surrogate (policy_clip a) adv ratio = adv * Rmin ratio (1 + policy_clip a)) /\
    (adv <= 0 ->
       surrogate (policy_clip a) adv ratio = adv * Rmax ratio (1 - policy_clip a)) /\
    surrogate (policy_clip a) adv ratio <= adv * ratio /\
    (1 - policy_clip a <= ratio <= 1 + policy_clip a ->
       surrogate (policy_clip a) adv ratio = adv * ratio).
Proof.
  intros a d net. apply (clipped_surrogate a d net). simpl. lra.
Defined.

(** X17: on a non-empty batch whose actions and log-probabilities were
    produced by the current actor ([exp(log_std)] at least 1e-4, clip width
    at least 0), the value of [actor_loss] is minus the mean of the batch's
    advantages minus the entropy bonus, whatever the states. *)
Theorem actor_loss_before_update {Adam} (a : Agent Adam) (sts : list State)
    (sampler : State -> Normal -> list R) (adv : list R) :
  Forall (fun ls => 1e-4 <= exp ls) (log_std (actor a)) ->
  0 <= policy_clip a -> sts <> [] ->
  let stored := map (fun s => sample_normal (actor a) s (sampler s)) sts in
  let d := mkBatchData sts (map (fun o => o.1.2) stored)
             (map (fun o => o.1.1) stored) adv in
  actor_loss a d (actor a)
  = - Rmean adv
    - entropy_coef a * Rmean (concat (map entropy (batch_dist (actor a) sts))).
Proof.
  intros Hstd Hc Hne stored d. subst stored d.
  rewrite actor_loss_surrogate.
  cbn [b_states b_actions b_old_probs b_advantage].
  assert (Hratio :
    zip_with (fun n o => exp (n - o))
      (zip_with (fun di act => Rsum (log_prob di act)) (batch_dist (actor a) sts)
         (map (fun o => o.1.1)
            (map (fun s => sample_normal (actor a) s (sampler s)) sts)))
      (map (fun o => o.1.2)
         (map (fun s => sample_normal (actor a) s (sampler s)) sts))
    = replicate (length sts) 1).
  { clear Hne. induction sts as [|s sts IH]; [reflexivity|].
    change (batch_dist (actor a) (s :: sts))
      with (batch_dist (actor a) [s] ++ batch_dist (actor a) sts).
    rewrite (batch_dist_sample_normal (actor a) s (sampler s) Hstd). simpl.
    rewrite IH. f_equal. rewrite Rminus_diag. apply exp_0. }
  rewrite Hratio.
  assert (Hrows : forall n,
    map (fun r => map (fun x => surrogate (policy_clip a) x r) adv) (replicate n 1)
    = replicate n adv).
  { induction n as [|n IH]; [reflexivity|]. simpl. rewrite IH. f_equal.
    rewrite <- (map_id adv) at 2. apply map_ext. intros x.
    by apply surrogate_at_one. }
  rewrite Hrows, Rmean_concat_replicate; [reflexivity|].
  destruct sts; [done|simpl; lia].
Qed.

Lemma actor_loss_before_update_witness :
  let a := two_step_agent in
  let sts := [[0]; [1]] in
  let sampler := fun (_ : State) (_ : Normal) => [3] in
  let adv := [-1; 1] in
  let stored := map (fun s => sample_normal (actor a) s (sampler s)) sts in
  let d := mkBatchData sts (map (fun o => o.1.2) stored)
             (map (fun o => o.1.1) stored) adv in
  actor_loss a d (actor a)
  = - Rmean adv
    - entropy_coef a * Rmean (concat (map entropy (batch_dist (actor a) sts))).
Proof.
  intros a sts sampler adv.
  apply (actor_loss_before_update a sts sampler adv).
  - repeat constructor. simpl. rewrite exp_0. lra.
  - simpl. lra.
  - discriminate.
Defined.

(** X18: when a batch is the whole buffer (its indices are a permutation of
    all of them), the normalised advantages of the batch have mean 0, and
    the value of the critic loss at the forward pass is
    [(sigma / (sigma + 1e-8)) ^ 2], with [sigma] the population standard
    deviation of the raw advantages: it is below 1 and does not depend on
    the critic. *)
Theorem critic_loss_full_batch {Adam} (c : CriticNetwork Adam) (bt : Batches)
    (raw : list R) (batch : list nat) (sts : list State) (old_probs : list R)
    (acts : list (list R)) (adv : list R) :
  raw <> [] -> batch ≡ₚ seq 0 (length raw) ->
  gather (state_arr bt) batch = Some sts ->
  gather (normalize_advantage raw) batch = Some adv ->
  let d := mkBatchData sts old_probs acts adv in
  Rmean adv = 0 /\
  critic_loss d c c = (Rstd raw / (Rstd raw + 1e-8)) ^ 2 /\
  0 <= critic_loss d c c < 1.
Proof.
  intros Hne Hperm Hs Ha d. subst d.
  assert (Hadv : adv ≡ₚ normalize_advantage raw).
  { destruct (gather_permutation (normalize_advantage raw) batch
                (seq 0 (length (normalize_advantage raw)))) with (k := adv)
      as (k' & Hk' & Hp); [by rewrite normalize_advantage_length|exact Ha|].
    rewrite gather_seq in Hk'. by injection Hk' as <-. }
  assert (Hmean : Rmean adv = 0).
  { rewrite (Rmean_permutation _ _ Hadv). by apply Rmean_normalize. }
  assert (Hloss : critic_loss (mkBatchData sts old_probs acts adv) c c
                  = (Rstd raw / (Rstd raw + 1e-8)) ^ 2).
  { unfold critic_loss. simpl.
    rewrite detached_residual.
    2:{ unfold critic_value. rewrite length_map.
        apply gather_length in Hs, Ha. lia. }
    rewrite (Rmean_permutation _ (map (fun x => x ^ 2) (normalize_advantage raw)))
      by (by apply Permutation_map).
    transitivity (Rvar (normalize_advantage raw)).
    { unfold Rvar. rewrite (Rmean_normalize raw Hne). f_equal.
      apply map_ext. intros x. f_equal. lra. }
    rewrite (Rvar_normalize raw Hne).
    pose proof (Rstd_nonneg raw) as Hs0.
    replace (Rvar raw) with (Rstd raw ^ 2).
    - field. lra.
    - unfold Rstd. apply pow2_sqrt, Rvar_nonneg, Hne. }
  split; [exact Hmean|]. split; [exact Hloss|]. rewrite Hloss.
  pose proof (Rstd_nonneg raw) as Hs0.
  set (q := Rstd raw / (Rstd raw + 1e-8)).
  assert (Hq : 0 <= q < 1).
  { unfold q. split.
    - apply Rmult_le_pos; [lra|]. left. apply Rinv_0_lt_compat. lra.
    - apply (Rmult_lt_reg_r (Rstd raw + 1e-8)); [lra|].
      unfold Rdiv. rewrite Rmult_assoc, Rinv_l by lra. lra. }
  nra.
Qed.

Lemma critic_loss_full_batch_witness :
  let bt := mkBatches [[0]; [0]] [[0]; [0]] [0; 0] [0; 0] [1; 1] [false; true]
              [[1; 0]%nat] in
  let raw := [1; 0] in
  let adv := [(0 - Rmean raw) / (Rstd raw + 1e-8); (1 - Rmean raw) / (Rstd raw + 1e-8)] in
  let d := mkBatchData [[0]; [0]] [0; 0] [[0]; [0]] adv in
  Rmean adv = 0 /\
  critic_loss d zero_critic zero_critic = (Rstd raw / (Rstd raw + 1e-8)) ^ 2 /\
  0 <= critic_loss d zero_critic zero_critic < 1.
Proof.
  intros bt raw adv.
  apply (critic_loss_full_batch zero_critic bt raw [1; 0]%nat [[0]; [0]] [0; 0]
           [[0]; [0]] adv).
  - discriminate.
  - apply perm_swap.
  - reflexivity.
  - reflexivity.
Defined.

(** X19: a freshly constructed actor has [log_std = 0], so its standard
    deviation is exactly 1 in each of the [n_actions] dimensions, for every
    state and whatever weights were drawn; neither clamp is active, at
    sampling time or at update time; and every bias is zero. *)
Theorem fresh_actor_std {Adam} (n_actions : nat) (fc1 fc2 head : Linear)
    (x1 x2 x3 : list (list R)) (optimiser : Adam) (state : State)
    (sample : Normal -> list R) :
  let net := ActorNetwork_init n_actions fc1 fc2 head x1 x2 x3 optimiser in
  (actor_forward net state).2 = replicate n_actions 1 /\
  scale (sample_normal net state sample).2 = replicate n_actions 1 /\
  map scale (batch_dist net [state]) = [replicate n_actions 1] /\
  Forall (fun b => b = 0)
    (bias (actor_fc1 net) ++ bias (actor_fc2 net) ++ bias (mean_head net)).
Proof.
  intros net. subst net.
  assert (Hexp : map exp (replicate n_actions 0) = replicate n_actions 1).
  { induction n_actions as [|n IH]; [reflexivity|]. simpl. by rewrite IH, exp_0. }
  assert (Hmax : forall lo, lo <= 1 ->
            map (fun s => Rmax s lo) (replicate n_actions 1) = replicate n_actions 1).
  { intros lo Hlo. clear Hexp. induction n_actions as [|n IH]; [reflexivity|].
    simpl. rewrite IH, Rmax_left by lra. reflexivity. }
  unfold sample_normal, batch_dist, actor_forward, ActorNetwork_init. simpl.
  rewrite Hexp, !Hmax by lra. repeat split.
  rewrite !Forall_app. repeat split; apply List.Forall_forall;
    intros b Hb; apply in_map_iff in Hb as (? & <- & _); reflexivity.
Qed.

(** ** Checkpoints *)

Section CheckpointFacts.
Local Open Scope string_scope.

Context {Adam FS : Type}.
Variable T_save : FS -> StateDict -> String.string -> option FS.
Variable T_load : FS -> String.string -> option StateDict.

(** What is asked of the file system: a file that was saved loads back, and
    saving one file leaves the others as they were. *)
Hypothesis load_saved :
  forall fs obj f fs', T_save fs obj f = Some fs' -> T_load fs' f = Some obj.
Hypothesis load_other :
  forall fs obj f fs' g,
    T_save fs obj f = Some fs' -> g <> f -> T_load fs' g = T_load fs g.

Lemma checkpoint_files_distinct : actor_checkpoint_file <> critic_checkpoint_file.
Proof. discriminate. Qed.

Lemma save_models_files fs (a : Agent Adam) fs' :
  save_models T_save fs a = Some fs' ->
  T_load fs' actor_checkpoint_file = Some (actor_state_dict (actor a)) /\
  T_load fs' critic_checkpoint_file = Some (critic_state_dict (critic a)) /\
  (forall g, g <> actor_checkpoint_file -> g <> critic_checkpoint_file ->
     T_load fs' g = T_load fs g).
Proof.
  unfold save_models, actor_save_checkpoint, critic_save_checkpoint. intros H.
  destruct (T_save fs (actor_state_dict (actor a)) actor_checkpoint_file)
    as [fs1|] eqn:H1; simpl in H; [|done].
  split; [|split].
  - rewrite (load_other _ _ _ _ actor_checkpoint_file H)
      by apply checkpoint_files_distinct.
    by apply (load_saved fs).
  - by apply (load_saved fs1).
  - intros g Ha Hc. rewrite (load_other _ _ _ _ g H) by done.
    by apply (load_other _ _ _ _ g H1).
Qed.

(** X20: after a successful [save_models] of agent [a], [load_models] on an
    agent [a2] succeeds exactly when the layers of [a2] have the shapes of
    those of [a]; it then gives [a2] the parameters of [a], so the same
    means, standard deviations and values for every state, and keeps the
    optimisers, the buffer and everything else of [a2].  The two checkpoints
    are the files [tmp/ppo/actor_ppo] and [tmp/ppo/critic_ppo], and no other
    file is touched. *)
Theorem save_load_round_trip fs (a a2 : Agent Adam) fs' :
  save_models T_save fs a = Some fs' ->
  (is_Some (load_models T_load fs' a2) <->
     (Linear_shape (actor_fc1 (actor a)) = Linear_shape (actor_fc1 (actor a2)) /\
      Linear_shape (actor_fc2 (actor a)) = Linear_shape (actor_fc2 (actor a2)) /\
      Linear_shape (mean_head (actor a)) = Linear_shape (mean_head (actor a2)) /\
      length (log_std (actor a)) = length (log_std (actor a2))) /\
     (Linear_shape (critic_fc1 (critic a)) = Linear_shape (critic_fc1 (critic a2)) /\
      Linear_shape (critic_fc2 (critic a)) = Linear_shape (critic_fc2 (critic a2)) /\
      length (value_weight (critic a)) = length (value_weight (critic a2)))) /\
  (forall a3, load_models T_load fs' a2 = Some a3 ->
     actor_state_dict (actor a3) = actor_state_dict (actor a) /\
     critic_state_dict (critic a3) = critic_state_dict (critic a) /\
     actor_optimiser (actor a3) = actor_optimiser (actor a2) /\
     critic_optimiser (critic a3) = critic_optimiser (critic a2) /\
     a3 = set_networks a2 (actor a3, critic a3) /\
     (forall state,
        actor_forward (actor a3) state = actor_forward (actor a) state /\
        critic_forward (critic a3) state = critic_forward (critic a) state)) /\
  actor_checkpoint_file = "tmp/ppo/actor_ppo" /\
  critic_checkpoint_file = "tmp/ppo/critic_ppo" /\
  (forall g, g <> actor_checkpoint_file -> g <> critic_checkpoint_file ->
     T_load fs' g = T_load fs g).
Proof.
  intros Hsave. destruct (save_models_files fs a fs' Hsave) as (Ha & Hc & Hother).
  unfold load_models, actor_load_checkpoint, critic_load_checkpoint.
  rewrite Ha, Hc. simpl.
  split; [|split; [|split; [reflexivity|split; [reflexivity|exact Hother]]]].
  - split.
    + intros [a3 H]. repeat case_bool_decide; simpl in H; try done.
    + intros [H1 H2]. rewrite !bool_decide_eq_true_2 by done. by eexists.
  - intros a3 H. repeat case_bool_decide; simpl in H; try done.
    injection H as <-. simpl. by repeat split.
Qed.

End CheckpointFacts.

Lemma list_load_saved (fs : list (String.string * StateDict)) obj f fs' :
  list_save fs obj f = Some fs' -> list_load fs' f = Some obj.
Proof. intros [= <-]. simpl. by rewrite String.eqb_refl. Qed.

Lemma list_load_other (fs : list (String.string * StateDict)) obj f fs' g :
  list_save fs obj f = Some fs' -> g <> f -> list_load fs' g = list_load fs g.
Proof.
  intros [= <-] Hne. simpl. destruct (String.eqb_spec f g) as [->|_]; done.
Qed.

Section CheckpointInstance.
Local Open Scope string_scope.

Lemma save_load_round_trip_witness :
  let a := two_step_agent in
  let a2 := two_step_agent in
  let fs := @nil (String.string * StateDict) in
  let fs' := [(critic_checkpoint_file, critic_state_dict (critic a));
              (actor_checkpoint_file, actor_state_dict (actor a))] in
  (is_Some (load_models list_load fs' a2) <->
     (Linear_shape (actor_fc1 (actor a)) = Linear_shape (actor_fc1 (actor a2)) /\
      Linear_shape (actor_fc2 (actor a)) = Linear_shape (actor_fc2 (actor a2)) /\
      Linear_shape (mean_head (actor a)) = Linear_shape (mean_head (actor a2)) /\
      length (log_std (actor a)) = length (log_std (actor a2))) /\
     (Linear_shape (critic_fc1 (critic a)) = Linear_shape (critic_fc1 (critic a2)) /\
      Linear_shape (critic_fc2 (critic a)) = Linear_shape (critic_fc2 (critic a2)) /\
      length (value_weight (critic a)) = length (value_weight (critic a2)))) /\
  (forall a3, load_models list_load fs' a2 = Some a3 ->
     actor_state_dict (actor a3) = actor_state_dict (actor a) /\
     critic_state_dict (critic a3) = critic_state_dict (critic a) /\
     actor_optimiser (actor a3) = actor_optimiser (actor a2) /\
     critic_optimiser (critic a3) = critic_optimiser (critic a2) /\
     a3 = set_networks a2 (actor a3, critic a3) /\
     (forall state,
        actor_forward (actor a3) state = actor_forward (actor a) state /\
        critic_forward (critic a3) state = critic_forward (critic a) state)) /\
  actor_checkpoint_file = "tmp/ppo/actor_ppo" /\
  critic_checkpoint_file = "tmp/ppo/critic_ppo" /\
  (forall g, g <> actor_checkpoint_file -> g <> critic_checkpoint_file ->
     list_load fs' g = list_load fs g).
Proof.
  intros a a2 fs fs'.
  apply (save_load_round_trip list_save list_load list_load_saved list_load_other
           fs a a2 fs').
  reflexivity.
Defined.

End CheckpointInstance.

(** * NaN and Inf: the assertion of [normalize_reward] and the update loop *)

Section FloatFacts.

Lemma isnan_eq (x : spec_float) : isnan x = true <-> x = S754_nan.
Proof. destruct x; simpl; split; intros H; (done || by inversion H). Qed.

Lemma f32_add_nan_l y : f32_add S754_nan y = S754_nan.
Proof. reflexivity. Qed.
Lemma f32_add_nan_r x : f32_add x S754_nan = S754_nan.
Proof. by destruct x. Qed.
Lemma f32_sub_nan_l y : f32_sub S754_nan y = S754_nan.
Proof. reflexivity. Qed.
Lemma f32_sub_nan_r x : f32_sub x S754_nan = S754_nan.
Proof. by destruct x. Qed.
Lemma f32_mul_nan_l y : f32_mul S754_nan y = S754_nan.
Proof. reflexivity. Qed.
Lemma f32_mul_nan_r x : f32_mul x S754_nan = S754_nan.
Proof. by destruct x. Qed.
Lemma f32_div_nan_l y : f32_div S754_nan y = S754_nan.
Proof. reflexivity. Qed.
Lemma f32_div_nan_r x : f32_div x S754_nan = S754_nan.
Proof. by destruct x. Qed.
Lemma f64_add_nan_l y : f64_add S754_nan y = S754_nan.
Proof. reflexivity. Qed.
Lemma f64_add_nan_r x : f64_add x S754_nan = S754_nan.
Proof. by destruct x. Qed.
Lemma f64_sub_nan_l y : f64_sub S754_nan y = S754_nan.
Proof. reflexivity. Qed.
Lemma f64_mul_nan_l y : f64_mul S754_nan y = S754_nan.
Proof. reflexivity. Qed.
Lemma f64_mul_nan_r x : f64_mul x S754_nan = S754_nan.
Proof. by destruct x. Qed.

(** *** The assertion *)

Lemma normalize_reward_f_outcome (st : RewardStats) (reward : spec_float) :
  (normalize_reward_f st reward).2 = AssertionError
  <-> isnan (normalized_reward_f st reward) = true
      \/ isinf (normalized_reward_f st reward) = true.
Proof.
  unfold normalize_reward_f.
  destruct (isnan (normalized_reward_f st reward)),
           (isinf (normalized_reward_f st reward)); simpl;
    split; intros H; try done; auto; by destruct H.
Qed.

Lemma normalize_reward_f_stats (st : RewardStats) (reward : spec_float) :
  (normalize_reward_f st reward).1
  = mkStats (new_running_mean st reward) (new_running_var st reward) (rs_epsilon st).
Proof.
  unfold normalize_reward_f.
  by destruct (negb (isnan _) && negb (isinf _)).
Qed.

(** *** The advantage array on floats *)








End FloatFacts.

Section FloatLearnFacts.

Context {St Act Nets : Type}.
Variable critic_f : Nets -> St -> spec_float.
Variable actor_loss_f : FAgent St Act Nets -> FBatchData St Act -> Nets -> spec_float.
Variable backward_step_f : (Nets -> spec_float) -> Nets -> Nets.

Implicit Types a : FAgent St Act Nets.



Lemma learn_batch_f_frame advantage a batch a' :
  learn_batch_f critic_f actor_loss_f backward_step_f advantage a batch = Some a' ->
  a' = fa_set_nets a (fa_nets a').
Proof.
  unfold learn_batch_f. intros H.
  destruct (gather (fm_states _) batch); simpl in H; [|done].
  destruct (gather (fm_probs _) batch); simpl in H; [|done].
  destruct (gather (fm_actions _) batch); simpl in H; [|done].
  destruct (gather advantage batch); simpl in H; [|done].
  by injection H as <-.
Qed.





End FloatLearnFacts.


(** ** [normalize_reward] on floats: what makes the assertion fire *)

Section RewardStatisticsFloat.

Lemma scalar_op_tensor_r (op64 op32 : spec_float -> spec_float -> spec_float)
    (a : scalar) (y : spec_float) :
  scalar_op op64 op32 a (Tensor y) = Tensor (op32 (tensor_of a) y).
Proof. by destruct a. Qed.

Lemma scalar_op_tensor_l (op64 op32 : spec_float -> spec_float -> spec_float)
    (x : spec_float) (b : scalar) :
  scalar_op op64 op32 (Tensor x) b = Tensor (op32 x (tensor_of b)).
Proof. by destruct b. Qed.

Lemma literal_001_f32 : to_f32 (py_literal 1 100) = S754_finite false 10737418 (-30).
Proof. vm_compute. reflexivity. Qed.

Lemma literal_099_f32 : to_f32 (py_literal 99 100) = S754_finite false 16609444 (-24).
Proof. vm_compute. reflexivity. Qed.

(** The new running mean is always a tensor. *)
Lemma new_running_mean_tensor (st : RewardStats) (reward : spec_float) :
  new_running_mean st reward
  = Tensor (f32_add
              (tensor_of (scalar_mul (PyFloat (py_literal 99 100)) (rs_running_mean st)))
              (f32_mul (to_f32 (py_literal 1 100)) (to_f32 reward))).
Proof.
  unfold new_running_mean, scalar_add, scalar_mul.
  rewrite (scalar_op_tensor_r _ _ (PyFloat (py_literal 1 100))).
  rewrite scalar_op_tensor_r. reflexivity.
Qed.

Lemma scaled_nan (c : spec_float) (v : scalar) :
  scalar_value v = S754_nan ->
  tensor_of (scalar_mul (PyFloat c) v) = S754_nan.
Proof.
  destruct v as [x|x]; simpl; intros ->.
  - unfold scalar_mul. simpl. by rewrite f64_mul_nan_r.
  - apply f32_mul_nan_r.
Qed.

(** A deviation [reward - running_mean] that is NaN makes the new variance
    and the normalised reward NaN. *)
Lemma deviation_tensor (st : RewardStats) (reward : spec_float) :
  scalar_sub (Tensor (to_f32 reward)) (new_running_mean st reward)
  = Tensor (f32_sub (to_f32 reward) (tensor_of (new_running_mean st reward))).
Proof. apply scalar_op_tensor_l. Qed.

(** The new running variance is always a tensor. *)
Lemma new_running_var_tensor (st : RewardStats) (reward : spec_float) :
  new_running_var st reward
  = Tensor (f32_add
              (tensor_of (scalar_mul (PyFloat (py_literal 99 100)) (rs_running_var st)))
              (f32_mul (to_f32 (py_literal 1 100))
                 (f32_square (f32_sub (to_f32 reward)
                                (tensor_of (new_running_mean st reward)))))).
Proof.
  unfold new_running_var. cbv zeta. rewrite deviation_tensor.
  unfold scalar_add, scalar_mul.
  rewrite (scalar_op_tensor_r _ _ (Tensor _)).
  rewrite (scalar_op_tensor_r _ _ (PyFloat (py_literal 1 100))).
  rewrite scalar_op_tensor_r. reflexivity.
Qed.

Lemma normalized_reward_f_tensor (st : RewardStats) (reward : spec_float) :
  normalized_reward_f st reward
  = f32_div (f32_sub (to_f32 reward) (tensor_of (new_running_mean st reward)))
      (f32_add (f32_sqrt (tensor_of (new_running_var st reward)))
         (tensor_of (rs_epsilon st))).
Proof.
  unfold normalized_reward_f. cbv zeta. rewrite deviation_tensor.
  unfold scalar_add. rewrite scalar_op_tensor_l. reflexivity.
Qed.

(** A deviation [reward - running_mean] that is NaN makes the new variance
    and the normalised reward NaN. *)
Lemma nan_deviation (st : RewardStats) (reward : spec_float) :
  f32_sub (to_f32 reward) (tensor_of (new_running_mean st reward)) = S754_nan ->
  new_running_var st reward = Tensor S754_nan /\
  normalized_reward_f st reward = S754_nan.
Proof.
  intros Hd. rewrite new_running_var_tensor, normalized_reward_f_tensor, Hd. split.
  - unfold f32_square. rewrite f32_mul_nan_l, f32_mul_nan_r, f32_add_nan_r.
    reflexivity.
  - apply f32_div_nan_l.
Qed.

Lemma nan_variance (st : RewardStats) (reward : spec_float) :
  scalar_value (rs_running_var st) = S754_nan ->
  new_running_var st reward = Tensor S754_nan /\
  normalized_reward_f st reward = S754_nan.
Proof.
  intros Hv.
  assert (Hnew : new_running_var st reward = Tensor S754_nan).
  { rewrite new_running_var_tensor, (scaled_nan _ _ Hv). reflexivity. }
  split; [exact Hnew|].
  rewrite normalized_reward_f_tensor, Hnew.
  change (f32_sqrt (tensor_of (Tensor S754_nan))) with S754_nan.
  rewrite f32_add_nan_l.
  apply f32_div_nan_r.
Qed.

Lemma poisoned_deviation (st : RewardStats) (reward : spec_float) :
  isnan (to_f32 reward) = true \/ isinf (to_f32 reward) = true \/
  isnan (scalar_value (rs_running_mean st)) = true ->
  f32_sub (to_f32 reward) (tensor_of (new_running_mean st reward)) = S754_nan.
Proof.
  intros H. rewrite new_running_mean_tensor.
  match goal with |- context [tensor_of (Tensor ?x)] =>
    change (tensor_of (Tensor x)) with x end.
  destruct H as [H|[H|H]].
  - apply isnan_eq in H. rewrite H. rewrite f32_mul_nan_r, f32_add_nan_r.
    reflexivity.
  - rewrite literal_001_f32.
    destruct (to_f32 reward) as [|s| |]; try discriminate H.
    generalize (tensor_of (scalar_mul (PyFloat (py_literal 99 100)) (rs_running_mean st))).
    intros y. destruct y as [|[]| |], s; reflexivity.
  - apply isnan_eq in H. rewrite (scaled_nan _ _ H), f32_add_nan_l.
    apply f32_sub_nan_r.
Qed.

End RewardStatisticsFloat.

(** X12: on float32 values, [normalize_reward] raises its assertion for
    every reward that is NaN or overflows to an infinity when cast to
    [T.float], and for every reward once [running_mean] or [running_var] is
    NaN, whatever the other values; it leaves [running_var] NaN, so every
    later call raises too. *)
Theorem normalize_reward_f_poisoned (st : RewardStats) (reward : spec_float) :
  isnan (to_f32 reward) = true \/ isinf (to_f32 reward) = true \/
  isnan (scalar_value (rs_running_mean st)) = true \/
  isnan (scalar_value (rs_running_var st)) = true ->
  (normalize_reward_f st reward).2 = AssertionError /\
  rs_running_var (normalize_reward_f st reward).1 = Tensor S754_nan /\
  forall reward',
    (normalize_reward_f (normalize_reward_f st reward).1 reward').2 = AssertionError.
Proof.
  intros H.
  assert (Hcore : new_running_var st reward = Tensor S754_nan /\
                  normalized_reward_f st reward = S754_nan).
  { destruct H as [H|[H|[H|H]]].
    - apply nan_deviation, poisoned_deviation. auto.
    - apply nan_deviation, poisoned_deviation. auto.
    - apply nan_deviation, poisoned_deviation. auto.
    - apply nan_variance. by apply isnan_eq. }
  destruct Hcore as [Hvar Hnr].
  split; [apply normalize_reward_f_outcome; left; by rewrite Hnr|].
  rewrite normalize_reward_f_stats. simpl. split; [exact Hvar|].
  intros reward'. apply normalize_reward_f_outcome. left.
  destruct (nan_variance (mkStats (new_running_mean st reward)
                            (new_running_var st reward) (rs_epsilon st)) reward')
    as [_ ->]; [simpl; by rewrite Hvar|reflexivity].
Qed.

(** The reward 1e39 at the statistics of a fresh agent. *)
Lemma normalize_reward_f_poisoned_witness :
  let reward := f64_mul (f64_of_Z 10) (f64_of_Z (10 ^ 38)) in
  (normalize_reward_f RewardStats_init reward).2 = AssertionError /\
  rs_running_var (normalize_reward_f RewardStats_init reward).1 = Tensor S754_nan /\
  forall reward',
    (normalize_reward_f (normalize_reward_f RewardStats_init reward).1 reward').2
    = AssertionError.
Proof.
  intros reward.
  apply (normalize_reward_f_poisoned RewardStats_init reward).
  right. left. vm_compute. reflexivity.
Defined.

(** On the statistics of a fresh agent: the reward 1.0 is normalised without
    an assertion; 1e6 and 1e7 give exactly 10.0 and the next binary32 value
    above it; 1e20 overflows [running_var] to +Inf and returns 0 without an
    assertion; 1e39 raises. *)
Example normalize_reward_f_values :
  (normalize_reward_f RewardStats_init (f64_of_Z 1)).2
    = Returned (S754_finite false 16611096 (-24)) /\
  (normalize_reward_f RewardStats_init (f64_of_Z (10 ^ 6))).2
    = Returned (S754_finite false 10485760 (-20)) /\
  (normalize_reward_f RewardStats_init (f64_of_Z (10 ^ 7))).2
    = Returned (S754_finite false 10485761 (-20)) /\
  normalize_reward_f RewardStats_init (f64_of_Z (10 ^ 20))
    = (mkStats (Tensor (S754_finite false 14551915 36)) (Tensor (S754_infinity false))
         (rs_epsilon RewardStats_init),
       Returned (S754_zero false)) /\
  normalize_reward_f RewardStats_init (f64_mul (f64_of_Z 10) (f64_of_Z (10 ^ 38)))
    = (mkStats (Tensor (S754_infinity false)) (Tensor S754_nan)
         (rs_epsilon RewardStats_init),
       AssertionError).
Proof. vm_compute. repeat split. Qed.
